(** * stream_player.js: the replay scheduler and the single-session player

    A shallow embedding of [run] and [playStream] of [stream_player.js],
    and what can be proved of them.

    - JavaScript numbers are [number]: an exact integer or [NaN].  Every
      number the script handles is a byte count or a [Date.now()] reading
      (integers far below 2^53), or the difference of two such readings,
      one of which may be [undefined].
    - A variable declared with [let x;] is an [option]: [None] is
      [undefined].
    - The event loop is made explicit: [run] is a transition system whose
      actions are the resumptions of its [await]s and the settling of the
      sessions it started; [playStream] is a transition system over the
      events its handlers are registered for. *)

From Stdlib Require Import ZArith NArith Lia.
From Stdlib.Strings Require Import Ascii String Byte.
From stdpp Require Import base option list gmap fin_sets strings pretty.

Local Open Scope Z_scope.

Set Warnings "-clear-no-such-hyp".

(** ** JavaScript values *)

Inductive number :=
| Num (z : Z)
| NaN.

#[global] Instance number_eq_dec : EqDecision number.
Proof. solve_decision. Defined.

(** [a + b] on numbers. *)
Definition nadd (a b : number) : number :=
  match a, b with
  | Num x, Num y => Num (x + y)
  | _, _ => NaN
  end.

(** [a - b] where either operand may be [undefined]:
    [undefined - x] and [x - undefined] are [NaN]. *)
Definition tsub (a b : option Z) : number :=
  match a, b with
  | Some x, Some y => Num (x - y)
  | _, _ => NaN
  end.

Inductive error :=
| Error (message : string).

#[global] Instance error_eq_dec : EqDecision error.
Proof. solve_decision. Defined.

(** ** JobResult / AggregateStats: the object [playStream] resolves and
       [run] folds *)

Record JobResult := mkStats {
  bytesSent : number;
  bytesReceived : number;
  sendTime : number;
  receiveTime : number
}.

#[global] Instance JobResult_eq_dec : EqDecision JobResult.
Proof. solve_decision. Defined.

(** The initial value of [results.reduce]. *)
Definition zeroStats : JobResult :=
  {| bytesSent := Num 0; bytesReceived := Num 0;
     sendTime := Num 0; receiveTime := Num 0 |}.

(** The callback of [results.reduce]: it adds [prev] into [cur] field by
    field and hands [cur] on. *)
Definition reducer (prev cur : JobResult) : JobResult :=
  {| bytesSent := nadd (bytesSent cur) (bytesSent prev);
     bytesReceived := nadd (bytesReceived cur) (bytesReceived prev);
     sendTime := nadd (sendTime cur) (sendTime prev);
     receiveTime := nadd (receiveTime cur) (receiveTime prev) |}.

(** [results.reduce(cb, init)].  The callback mutates the element it is
    given, so the fold also rewrites the array: afterwards element [i]
    holds the sum of elements [0..i].  Every element of [results] is a
    fresh object literal built by one session, so no object occurs twice.
    The first component is the returned value, the second the array as
    the fold leaves it. *)
Fixpoint reduce_mut (acc : JobResult) (results : list JobResult)
  : JobResult * list JobResult :=
  match results with
  | [] => (acc, [])
  | cur :: rest =>
      let cur' := reducer acc cur in
      let '(final, rest') := reduce_mut cur' rest in
      (final, cur' :: rest')
  end.

Definition reduce (results : list JobResult) : JobResult :=
  fst (reduce_mut zeroStats results).

(** The elementwise sum, written without reference to the fold. *)
Definition sum_field (f : JobResult → number) (l : list JobResult) : number :=
  foldr (λ r acc, nadd (f r) acc) (Num 0) l.

Definition stats_sum (l : list JobResult) : JobResult :=
  {| bytesSent := sum_field bytesSent l;
     bytesReceived := sum_field bytesReceived l;
     sendTime := sum_field sendTime l;
     receiveTime := sum_field receiveTime l |}.

(** ** [run]: the scheduler *)

Record options := mkOptions {
  numIterations : nat;
  numConcurrent : nat;
  verbose : bool;
  debugProtocol : bool
}.

(** How the promise returned by one [playStream] call settles. *)
Inductive settled :=
| Fulfilled (stats : JobResult)
| Rejected (err : error).

(** [nullServer]: [null], listening, or closed by [nullServer.close()]. *)
Inductive server_state :=
| NoServer
| Listening
| ServerClosed.

#[global] Instance server_state_eq_dec : EqDecision server_state.
Proof. solve_decision. Defined.

(** What [run] does that the outside can observe, in order. *)
Inductive tevent :=
| TListen (port : N) (host : string)
    (* nullServer.listen(0, "0.0.0.0", ...) *)
| TStart (next : list nat) (address : string)
    (* next.map(t => t()): playStream is called for every job of [next] *)
| TSettle (jobNum : nat)
    (* the promise of session [jobNum] settles *)
| TServerClose.
    (* nullServer.close() *)

#[global] Instance tevent_eq_dec : EqDecision tevent.
Proof. solve_decision. Defined.

(** Where the promise returned by [run] stands. *)
Inductive phase :=
| Running
| Failed (err : error)
| Returned (stats : JobResult).

#[global] Instance phase_eq_dec : EqDecision phase.
Proof. solve_decision. Defined.

(** The variables of one call of [run].  A job closure is determined by
    its [jobNum], so [jobs] holds the numbers.  [awaiting] is the set of
    promises the pending [Promise.all] still waits for; [inflight] is the
    set of sessions started and not yet settled. *)
Record sched := mkSched {
  serverAddress : string;
  nullServer : server_state;
  jobs : list nat;
  results : list JobResult;
  awaiting : gset nat;
  inflight : gset nat;
  phase_of : phase;
  trace : list tevent;
  console : list string
}.

(** [!serverAddress]: the argument is missing or the empty string. *)
Definition falsy (serverAddress : option string) : bool :=
  match serverAddress with
  | None => true
  | Some a => bool_decide (a = ""%string)
  end.

(** [`${a.address}:${a.port}`] for the address of the listening server;
    [port] is the port the operating system assigned. *)
Definition null_address (port : N) : string :=
  ("0.0.0.0" +:+ ":" +:+ pretty port)%string.

(** The first loop: one job per iteration, numbered from 1. *)
Fixpoint build_jobs (fuel : nat) (numIter : nat) (jobs : list nat)
  : list nat :=
  match fuel with
  | O => jobs
  | S fuel' =>
      if decide (length jobs < numIter)%nat
      then build_jobs fuel' numIter (jobs ++ [S (length jobs)])
      else jobs
  end.

(** [run] up to its second loop: the server is listening (when one is
    needed) and the jobs are built; nothing has been started. *)
Definition run_init (serverAddress : option string) (opts : options)
    (port : N) : sched :=
  let null := falsy serverAddress in
  {| serverAddress :=
       if null then null_address port else default ""%string serverAddress;
     nullServer := if null then Listening else NoServer;
     jobs := build_jobs (numIterations opts) (numIterations opts) [];
     results := [];
     awaiting := ∅;
     inflight := ∅;
     phase_of := Running;
     trace := if null then [TListen 0 "0.0.0.0"] else [];
     console := [] |}.

(** The line a job prints when it is started. *)
Definition playing_line (opts : options) (jobNum : nat) : list string :=
  if verbose opts && bool_decide (1 < numIterations opts)%nat
  then [("Playing iteration " +:+ pretty jobNum +:+ "/"
          +:+ pretty (numIterations opts))%string]
  else [].

(** One turn of the second loop: [jobs.splice(0, numConcurrent)], then
    every job of the batch is called and [Promise.all] waits for them. *)
Definition start_batch (opts : options) (s : sched) : sched :=
  let next := take (numConcurrent opts) (jobs s) in
  {| serverAddress := serverAddress s;
     nullServer := nullServer s;
     jobs := drop (numConcurrent opts) (jobs s);
     results := results s;
     awaiting := list_to_set next;
     inflight := inflight s ∪ list_to_set next;
     phase_of := phase_of s;
     trace := trace s ++ [TStart next (serverAddress s)];
     console := console s ++ mjoin (playing_line opts <$> next) |}.

(** The code after the loop: close the server, fold the results. *)
Definition finish (s : sched) : sched :=
  let '(stats, arr) := reduce_mut zeroStats (results s) in
  {| serverAddress := serverAddress s;
     nullServer :=
       match nullServer s with NoServer => NoServer | _ => ServerClosed end;
     jobs := jobs s;
     results := arr;
     awaiting := awaiting s;
     inflight := inflight s;
     phase_of := Returned stats;
     trace :=
       trace s ++
       match nullServer s with NoServer => [] | _ => [TServerClose] end;
     console := console s |}.

(** Session [i] resolves: [.then(stats => results.push(stats))]. *)
Definition fulfil (i : nat) (stats : JobResult) (s : sched) : sched :=
  {| serverAddress := serverAddress s;
     nullServer := nullServer s;
     jobs := jobs s;
     results := results s ++ [stats];
     awaiting := awaiting s ∖ {[i]};
     inflight := inflight s ∖ {[i]};
     phase_of := phase_of s;
     trace := trace s ++ [TSettle i];
     console := console s |}.

(** Session [i] rejects: [.catch(err => { throw(err); })] rejects the
    job's promise, [Promise.all] rejects at once, and the pending [await]
    throws out of [run]; a later rejection finds [run] already rejected. *)
Definition reject (i : nat) (err : error) (s : sched) : sched :=
  {| serverAddress := serverAddress s;
     nullServer := nullServer s;
     jobs := jobs s;
     results := results s;
     awaiting := awaiting s;
     inflight := inflight s ∖ {[i]};
     phase_of := match phase_of s with Running => Failed err | p => p end;
     trace := trace s ++ [TSettle i];
     console := console s |}.

(** The turns of the event loop that concern [run]. *)
Inductive action :=
| Resume
    (* the Promise.all that run awaits has resolved: run continues *)
| Settle (jobNum : nat).
    (* the promise of a started session settles *)

(** [play i] is how session [i] settles once started, [None] if it never
    does.  [step] is [None] when the action cannot happen in [s]. *)
Definition step (play : nat → option settled) (opts : options)
    (s : sched) (a : action) : option sched :=
  match a with
  | Resume =>
      match phase_of s with
      | Running =>
          if decide (awaiting s = ∅) then
            match jobs s with
            | [] => Some (finish s)
            | _ :: _ => Some (start_batch opts s)
            end
          else None
      | _ => None
      end
  | Settle i =>
      if decide (i ∈ inflight s) then
        match play i with
        | Some (Fulfilled stats) => Some (fulfil i stats s)
        | Some (Rejected err) => Some (reject i err s)
        | None => None
        end
      else None
  end.

Fixpoint exec (play : nat → option settled) (opts : options)
    (s : sched) (acts : list action) : option sched :=
  match acts with
  | [] => Some s
  | a :: acts' =>
      match step play opts s a with
      | Some s' => exec play opts s' acts'
      | None => None
      end
  end.

(** [run(filePath, serverAddress, options)] under a schedule of the event
    loop: where its promise stands once the turns [acts] have run, [None]
    if they cannot run in that order. *)
Definition run (play : nat → option settled)
    (serverAddress : option string) (opts : options) (port : N)
    (acts : list action) : option phase :=
  phase_of <$> exec play opts (run_init serverAddress opts port) acts.

(** The states [run] can be in. *)
Definition reachable (play : nat → option settled)
    (serverAddress : option string) (opts : options) (port : N)
    (s : sched) : Prop :=
  ∃ acts, exec play opts (run_init serverAddress opts port) acts = Some s.

(** The batches started so far, and the sessions in them. *)
Definition batches_of (tr : list tevent) : list (list nat) :=
  omap (λ e, match e with TStart next _ => Some next | _ => None end) tr.

Definition started (s : sched) : list nat := mjoin (batches_of (trace s)).

(** Consecutive chunks of [k] elements, the last one possibly shorter. *)
Fixpoint chunks (fuel k : nat) (l : list nat) : list (list nat) :=
  match fuel with
  | O => []
  | S fuel' =>
      match l with
      | [] => []
      | _ :: _ => take k l :: chunks fuel' k (drop k l)
      end
  end.

(** The schedule that settles every batch in job order. *)
Definition fifo (N k : nat) : list action :=
  mjoin ((λ b, Resume :: (Settle <$> b)) <$> chunks N k (seq 1 N))
  ++ [Resume].

(** ** SHA-256 (FIPS 180-4), the digest behind
       [crypto.createHash('sha256')] *)

Module SHA256.
Local Open Scope N_scope.

Definition w32 (x : N) : N := N.land x 0xFFFFFFFF.
Definition add32 (x y : N) : N := w32 (x + y).
Definition rotr (n x : N) : N :=
  N.lor (N.shiftr x n) (w32 (N.shiftl x (32 - n))).
Definition not32 (x : N) : N := N.lxor x 0xFFFFFFFF.

Definition Ch (x y z : N) : N :=
  N.lxor (N.land x y) (N.land (not32 x) z).
Definition Maj (x y z : N) : N :=
  N.lxor (N.lxor (N.land x y) (N.land x z)) (N.land y z).
Definition Sigma0 (x : N) : N :=
  N.lxor (N.lxor (rotr 2 x) (rotr 13 x)) (rotr 22 x).
Definition Sigma1 (x : N) : N :=
  N.lxor (N.lxor (rotr 6 x) (rotr 11 x)) (rotr 25 x).
Definition sigma0 (x : N) : N :=
  N.lxor (N.lxor (rotr 7 x) (rotr 18 x)) (N.shiftr x 3).
Definition sigma1 (x : N) : N :=
  N.lxor (N.lxor (rotr 17 x) (rotr 19 x)) (N.shiftr x 10).

(** The constants are derived the way the standard defines them, from
    the first 64 primes: the first 32 bits of the fractional part of the
    cube root ([K]) and of the square root ([H0]) of each. *)
Definition is_prime (n : nat) : bool :=
  forallb (λ d, negb (n mod d =? 0)%nat) (seq 2 (n - 2)).

Definition primes : list N :=
  Eval vm_compute in N.of_nat <$> take 64 (filter is_prime (seq 2 400)).

(** The integer cube root of [n], built bit by bit from bit [bits - 1]
    down. *)
Fixpoint icbrt (bits : nat) (n r : N) : N :=
  match bits with
  | O => r
  | S bits' =>
      let r' := r + N.shiftl 1 (N.of_nat bits') in
      icbrt bits' n (if r' * r' * r' <=? n then r' else r)
  end.

Definition K : list N :=
  Eval vm_compute in (λ p, w32 (icbrt 36 (N.shiftl p 96) 0)) <$> primes.

Definition H0 : list N :=
  Eval vm_compute in (λ p, w32 (N.sqrt (N.shiftl p 64))) <$> take 8 primes.

(** [x] as [n] bytes, most significant first. *)
Definition be_bytes (n : nat) (x : N) : list N :=
  (λ i, N.land (N.shiftr x (8 * N.of_nat (n - 1 - i))) 0xFF) <$> seq 0 n.

(** The message followed by the bit 1, zeros, and its length in bits
    as a 64-bit big-endian integer; a multiple of 64 bytes. *)
Definition pad (msg : list N) : list N :=
  let len := length msg in
  let zeros := ((64 - (len + 9) mod 64) mod 64)%nat in
  msg ++ [0x80] ++ replicate zeros 0 ++ be_bytes 8 (8 * N.of_nat len).

Definition be_word (bs : list N) : N :=
  foldl (λ acc b, N.lor (N.shiftl acc 8) b) 0 bs.

Fixpoint group (fuel n : nat) (l : list N) : list (list N) :=
  match fuel with
  | O => []
  | S fuel' =>
      match l with
      | [] => []
      | _ :: _ => take n l :: group fuel' n (drop n l)
      end
  end.

(** The 64 words of the message schedule of one block. *)
Fixpoint schedule (n : nat) (w : list N) : list N :=
  match n with
  | O => w
  | S n' =>
      let t := length w in
      let at_ i := nth (t - i) w 0 in
      schedule n'
        (w ++ [add32 (add32 (sigma1 (at_ 2%nat)) (at_ 7%nat))
                     (add32 (sigma0 (at_ 15%nat)) (at_ 16%nat))])
  end.

Definition round (st : list N) (kw : N * N) : list N :=
  match st with
  | [a; b; c; d; e; f; g; h] =>
      let t1 := add32 (add32 (add32 h (Sigma1 e)) (Ch e f g))
                      (add32 (fst kw) (snd kw)) in
      let t2 := add32 (Sigma0 a) (Maj a b c) in
      [add32 t1 t2; a; b; c; add32 d t1; e; f; g]
  | _ => st
  end.

Definition compress (h : list N) (block : list N) : list N :=
  let w := schedule 48 (be_word <$> group 16 4 block) in
  zip_with add32 h (foldl round h (zip K w)).

Definition digest (msg : list N) : list N :=
  let blocks := group (S (length msg)) 64 (pad msg) in
  mjoin (be_bytes 4 <$> foldl compress H0 blocks).
End SHA256.

Definition sha256 (msg : list byte) : list byte :=
  (λ n, default x00 (Byte.of_N n)) <$> SHA256.digest (Byte.to_N <$> msg).

(** [buf.toString('hex')]: two lowercase hexadecimal digits per byte. *)
Definition hex_digit (n : N) : ascii :=
  match n with
  | 0 => "0" | 1 => "1" | 2 => "2" | 3 => "3" | 4 => "4" | 5 => "5"
  | 6 => "6" | 7 => "7" | 8 => "8" | 9 => "9" | 10 => "a" | 11 => "b"
  | 12 => "c" | 13 => "d" | 14 => "e" | _ => "f"
  end%N%char.

Fixpoint hex (bs : list byte) : string :=
  match bs with
  | [] => EmptyString
  | b :: bs' =>
      String (hex_digit (Byte.to_N b / 16)%N)
        (String (hex_digit (Byte.to_N b mod 16)%N) (hex bs'))
  end.

(** [arr.join(' ')]. *)
Fixpoint join (sep : string) (l : list string) : string :=
  match l with
  | [] => EmptyString
  | [x] => x
  | x :: rest => (x +:+ sep +:+ join sep rest)%string
  end.

Definition newline : string := String (ascii_of_nat 10) EmptyString.

(** The lines of a text: the pieces that end in a newline, and a last
    piece without one if any characters follow the last newline. *)
Fixpoint lines_from (cur : string) (s : string) : list string :=
  match s with
  | EmptyString =>
      match cur with EmptyString => [] | _ => [cur] end
  | String c s' =>
      if decide (c = ascii_of_nat 10)
      then cur :: lines_from EmptyString s'
      else lines_from (cur +:+ String c EmptyString)%string s'
  end.

Definition lines (s : string) : list string := lines_from EmptyString s.

(** ** [playStream]: one session *)

Definition RECEIVE_DATA_TIMEOUT : Z := 500.

(** The object the decoder passes to a ['header'] listener.  [size] is
    [None] when the property is [undefined]. *)
Record header := mkHeader {
  cmd : string;
  size : option N;
  guid : list byte;
  hash : list byte
}.

(** [if(header.size)]: the size is defined and not zero. *)
Definition size_truthy (h : header) : bool :=
  match size h with
  | Some n => negb (n =? 0)%N
  | None => false
  end.

Record address := mkAddress {
  host : string;
  port : Z
}.

(** The parts of [lib/helpers] and [lib/constants] that [playStream]
    calls; they are not part of this file and are taken as given. *)
Record helpers := mkHelpers {
  GUIDBufferToString : list byte → string;
  parseAndValidateAddressString : string → Z → address + error;
  DEFAULT_PORT : Z
}.

(** A [Hash] object: it collects the bytes it is fed until [digest()]
    is called, after which it cannot be used again. *)
Inductive hash_obj :=
| Hashing (msg : list byte)
| Finalized.

(** What the event loop delivers to the listeners [playStream] has
    registered.  [now] is the clock reading when the listener runs. *)
Inductive event :=
| FileOpen (now : Z)               (* fileStream 'open' *)
| FileClose (now : Z)              (* fileStream 'close' *)
| OnHeader (now : Z) (h : header)  (* ssp 'header' *)
| OnData (chunk : list byte)       (* ssp 'data' *)
| OnDataEnd (now : Z)              (* ssp 'dataEnd' *)
| OnDebug (data : list string)     (* csd 'debug' *)
| TimerFires (handle : nat) (now : Z)
    (* the callback of a pending setTimeout runs *)
| OnClose (remote : bool).
    (* client 'close': the peer closed the connection ([remote]), or the
       close completes the client's own [end] *)

(** The variables of one call of [playStream], the timers it has
    pending in the runtime, and what it has done to the outside. *)
Record session := mkSession {
  timer : option nat;
  received : Z;
  receiveStartTime : option Z;
  receiveEndTime : option Z;
  sendStartTime : option Z;
  sendEndTime : option Z;
  dataHash : option hash_obj;
  once_header : bool;   (* the once('header') listener is still there *)
  timers : gmap nat Z;  (* handle ↦ the time the timeout is due *)
  next_handle : nat;
  end_calls : list (list byte);  (* the argument of every client.end(...) *)
  stdout : string;
  resolved : option JobResult
}.

(** [setTimer()] at time [now]. *)
Definition setTimer (now : Z) (s : session) : session :=
  {| timer := Some (next_handle s);
     received := received s;
     receiveStartTime := receiveStartTime s;
     receiveEndTime := receiveEndTime s;
     sendStartTime := sendStartTime s;
     sendEndTime := sendEndTime s;
     dataHash := dataHash s;
     once_header := once_header s;
     timers := <[next_handle s := now + RECEIVE_DATA_TIMEOUT]> (timers s);
     next_handle := S (next_handle s);
     end_calls := end_calls s;
     stdout := stdout s;
     resolved := resolved s |}.

(** [clearTimeout(timer)]: nothing happens if [timer] is [null] or its
    timeout has already run. *)
Definition clearTimeout (s : session) : session :=
  {| timer := timer s;
     received := received s;
     receiveStartTime := receiveStartTime s;
     receiveEndTime := receiveEndTime s;
     sendStartTime := sendStartTime s;
     sendEndTime := sendEndTime s;
     dataHash := dataHash s;
     once_header := once_header s;
     timers := match timer s with
               | Some handle => delete handle (timers s)
               | None => timers s
               end;
     next_handle := next_handle s;
     end_calls := end_calls s;
     stdout := stdout s;
     resolved := resolved s |}.

(** The state when [playStream] reaches its [return]: every listener is
    registered and [setTimer()] has run once, at time [now]. *)
Definition session_init (now : Z) : session :=
  setTimer now
    {| timer := None;
       received := 0;
       receiveStartTime := None;
       receiveEndTime := None;
       sendStartTime := None;
       sendEndTime := None;
       dataHash := None;
       once_header := true;
       timers := ∅;
       next_handle := 0;
       end_calls := [];
       stdout := EmptyString;
       resolved := None |}.

(** The text of the debug line of a header, without line end. *)
Definition header_text (H : helpers) (h : header) : string :=
  ("<<< " +:+
   join " " ([cmd h]
             ++ (if size_truthy h then [pretty (default 0%N (size h))] else [])
             ++ [GUIDBufferToString H (guid h); hex (hash h)]))%string.

Definition blob_text (digest : list byte) : string :=
  (" <BLOB " +:+ hex digest +:+ ">")%string.

(** The two ['header'] listeners. *)
Definition on_header (H : helpers) (debug : bool) (now : Z) (h : header)
    (s : session) : session :=
  clearTimeout
    {| timer := timer s;
       received := received s;
       receiveStartTime :=
         if once_header s then Some now else receiveStartTime s;
       receiveEndTime := receiveEndTime s;
       sendStartTime := sendStartTime s;
       sendEndTime := sendEndTime s;
       dataHash := if debug then Some (Hashing []) else dataHash s;
       once_header := false;
       timers := timers s;
       next_handle := next_handle s;
       end_calls := end_calls s;
       stdout :=
         if debug then
           (stdout s +:+ header_text H h +:+
            (if size_truthy h then EmptyString else newline))%string
         else stdout s;
       resolved := resolved s |}.

(** The ['data'] listener; [None] when [dataHash.update] throws. *)
Definition on_data (debug : bool) (chunk : list byte) (s : session)
  : option session :=
  let go (dh : option hash_obj) :=
    {| timer := timer s;
       received := received s + Z.of_nat (length chunk);
       receiveStartTime := receiveStartTime s;
       receiveEndTime := receiveEndTime s;
       sendStartTime := sendStartTime s;
       sendEndTime := sendEndTime s;
       dataHash := dh;
       once_header := once_header s;
       timers := timers s;
       next_handle := next_handle s;
       end_calls := end_calls s;
       stdout := stdout s;
       resolved := resolved s |} in
  if debug then
    match dataHash s with
    | Some (Hashing msg) => Some (go (Some (Hashing (msg ++ chunk))))
    | _ => None
    end
  else Some (go (dataHash s)).

(** The ['dataEnd'] listener; [None] when [dataHash.digest] throws. *)
Definition on_dataEnd (debug : bool) (now : Z) (s : session)
  : option session :=
  let go (dh : option hash_obj) (out : string) :=
    setTimer now
      {| timer := timer s;
         received := received s;
         receiveStartTime := receiveStartTime s;
         receiveEndTime := Some now;
         sendStartTime := sendStartTime s;
         sendEndTime := sendEndTime s;
         dataHash := dh;
         once_header := once_header s;
         timers := timers s;
         next_handle := next_handle s;
         end_calls := end_calls s;
         stdout := out;
         resolved := resolved s |} in
  if debug then
    match dataHash s with
    | Some (Hashing msg) =>
        Some (go (Some Finalized)
                (stdout s +:+ blob_text (sha256 msg) +:+ newline)%string)
    | _ => None
    end
  else Some (go (dataHash s) (stdout s)).

(** The callback of [setTimeout]: [client.end('')]. *)
Definition on_timeout (handle : nat) (s : session) : session :=
  {| timer := timer s;
     received := received s;
     receiveStartTime := receiveStartTime s;
     receiveEndTime := receiveEndTime s;
     sendStartTime := sendStartTime s;
     sendEndTime := sendEndTime s;
     dataHash := dataHash s;
     once_header := once_header s;
     timers := delete handle (timers s);
     next_handle := next_handle s;
     end_calls := end_calls s ++ [[]];
     stdout := stdout s;
     resolved := resolved s |}.

(** The ['close'] listener: [resolve({...})]. *)
Definition on_close (fileSize : Z) (s : session) : session :=
  {| timer := timer s;
     received := received s;
     receiveStartTime := receiveStartTime s;
     receiveEndTime := receiveEndTime s;
     sendStartTime := sendStartTime s;
     sendEndTime := sendEndTime s;
     dataHash := dataHash s;
     once_header := once_header s;
     timers := timers s;
     next_handle := next_handle s;
     end_calls := end_calls s;
     stdout := stdout s;
     resolved :=
       Some {| bytesSent := Num fileSize;
               bytesReceived := Num (received s);
               sendTime := tsub (sendEndTime s) (sendStartTime s);
               receiveTime :=
                 tsub (receiveEndTime s) (receiveStartTime s) |} |}.

Definition set_send (start finish : option Z) (s : session) : session :=
  {| timer := timer s;
     received := received s;
     receiveStartTime := receiveStartTime s;
     receiveEndTime := receiveEndTime s;
     sendStartTime := start;
     sendEndTime := finish;
     dataHash := dataHash s;
     once_header := once_header s;
     timers := timers s;
     next_handle := next_handle s;
     end_calls := end_calls s;
     stdout := stdout s;
     resolved := resolved s |}.

Definition print (text : string) (s : session) : session :=
  {| timer := timer s;
     received := received s;
     receiveStartTime := receiveStartTime s;
     receiveEndTime := receiveEndTime s;
     sendStartTime := sendStartTime s;
     sendEndTime := sendEndTime s;
     dataHash := dataHash s;
     once_header := once_header s;
     timers := timers s;
     next_handle := next_handle s;
     end_calls := end_calls s;
     stdout := (stdout s +:+ text)%string;
     resolved := resolved s |}.

(** One event.  [None]: the event cannot happen in [s] (a timeout that
    is not pending or not yet due, a second ['close'], a local close with
    no [end] before it), or its listener throws. *)
Definition on_event (H : helpers) (debug : bool) (fileSize : Z)
    (s : session) (e : event) : option session :=
  match e with
  | FileOpen now => Some (set_send (Some now) (sendEndTime s) s)
  | FileClose now => Some (set_send (sendStartTime s) (Some now) s)
  | OnHeader now h => Some (on_header H debug now h s)
  | OnData chunk => on_data debug chunk s
  | OnDataEnd now => on_dataEnd debug now s
  | OnDebug data =>
      Some (if debug
            then print (">>> " +:+ join " " data +:+ newline)%string s
            else s)
  | TimerFires handle now =>
      match timers s !! handle with
      | Some due =>
          if decide (due ≤ now) then Some (on_timeout handle s) else None
      | None => None
      end
  | OnClose remote =>
      match resolved s with
      | Some _ => None
      | None =>
          if remote || bool_decide (end_calls s ≠ [])
          then Some (on_close fileSize s)
          else None
      end
  end.

Fixpoint on_events (H : helpers) (debug : bool) (fileSize : Z)
    (s : session) (es : list event) : option session :=
  match es with
  | [] => Some s
  | e :: es' =>
      match on_event H debug fileSize s e with
      | Some s' => on_events H debug fileSize s' es'
      | None => None
      end
  end.

(** What happens around one session: the file, the clock when the timer
    is first set, and the events delivered afterwards. *)
Record world := mkWorld {
  pathExists : bool;
  fileSize : Z;
  startTime : Z;
  events : list event
}.

(** [playStream(filePath, serverAddress, options)] in a given world:
    how its promise settles, [None] if it never does. *)
Definition playStream (H : helpers) (filePath serverAddress : string)
    (opts : options) (w : world) : option settled :=
  if pathExists w then
    match parseAndValidateAddressString H serverAddress (DEFAULT_PORT H) with
    | inr err => Some (Rejected err)
    | inl _ =>
        match on_events H (debugProtocol opts) (fileSize w)
                (session_init (startTime w)) (events w) with
        | Some s => Fulfilled <$> resolved s
        | None => None
        end
    end
  else Some (Rejected (Error ("Cannot find " +:+ filePath)%string)).

(** The handler [run]'s caller attaches to the promise: on success the
    statistics lines (their text is formatted by the [filesize] package
    and is left symbolic), on failure the error and exit code 1. *)
Inductive report :=
| SentLine (stats : JobResult)
| ReceivedLine (stats : JobResult)
| ErrorLine (err : error).

(** [x > 0]; false for [NaN]. *)
Definition gt0 (x : number) : bool :=
  match x with
  | Num z => bool_decide (0 < z)
  | NaN => false
  end.

Definition program_action (opts : options) (p : phase)
  : list report * option Z :=
  match p with
  | Running => ([], None)
  | Returned stats =>
      (if verbose opts then
         (if gt0 (bytesSent stats) then [SentLine stats] else []) ++
         (if gt0 (bytesReceived stats) then [ReceivedLine stats] else [])
       else [],
       None)
  | Failed err => ([ErrorLine err], Some 1)
  end.

(** The connection listener of the local server:
    [socket.on('data', () => {})].  What it writes back for a chunk. *)
Definition nullServer_on_data (chunk : list byte) : list byte := [].

(** The sessions of one [run]: job [i] plays in world [worlds i], against
    the address [run] settled on. *)
Definition play_in (H : helpers) (filePath : string)
    (serverAddress0 : option string) (opts : options) (port : N)
    (worlds : nat → world) (i : nat) : option settled :=
  playStream H filePath
    (serverAddress (run_init serverAddress0 opts port)) opts (worlds i).

(** ** The decoder's event order *)

(** Modelled from the spec: [lib/client/server_stream_processor] is not
    part of this file.  The decoder is in one of two states, awaiting a
    header or awaiting data; it emits [Header], then zero or more [Data]
    and one [DataEnd] exactly when the header declared a size. *)
Inductive dec_state :=
| AwaitHeader
| AwaitData.

#[global] Instance dec_state_eq_dec : EqDecision dec_state.
Proof. solve_decision. Defined.

(** Modelled from the spec: one event of the decoder ([None]: the
    decoder does not emit [e] in state [d]); the events of the file, the
    timer and the socket leave it where it is. *)
Definition dec_step (d : dec_state) (e : event) : option dec_state :=
  match e with
  | OnHeader _ h =>
      match d with
      | AwaitHeader =>
          Some (match size h with Some _ => AwaitData | None => AwaitHeader end)
      | AwaitData => None
      end
  | OnData _ =>
      match d with AwaitData => Some AwaitData | AwaitHeader => None end
  | OnDataEnd _ =>
      match d with AwaitData => Some AwaitHeader | AwaitHeader => None end
  | _ => Some d
  end.

Fixpoint dec_run (d : dec_state) (es : list event) : option dec_state :=
  match es with
  | [] => Some d
  | e :: es' =>
      match dec_step d e with
      | Some d' => dec_run d' es'
      | None => None
      end
  end.

(** Modelled from the spec: the events the decoder emits for one frame,
    a header followed, exactly when it declares a size, by the chunks of
    the blob and the end of the blob. *)
Definition frame_events (now : Z) (h : header) (chunks : list (list byte))
    (done : Z) : list event :=
  OnHeader now h ::
  match size h with
  | Some _ => (OnData <$> chunks) ++ [OnDataEnd done]
  | None => []
  end.

(** An event of the decoder, as opposed to one of the file, the timer
    or the socket. *)
Definition is_decoder_event (e : event) : bool :=
  match e with
  | OnHeader _ _ | OnData _ | OnDataEnd _ => true
  | _ => false
  end.

(** ** What a trace of events says, read off the trace alone *)

Definition header_times (es : list event) : list Z :=
  omap (λ e, match e with OnHeader now _ => Some now | _ => None end) es.

Definition dataEnd_times (es : list event) : list Z :=
  omap (λ e, match e with OnDataEnd now => Some now | _ => None end) es.

Definition open_times (es : list event) : list Z :=
  omap (λ e, match e with FileOpen now => Some now | _ => None end) es.

Definition close_times (es : list event) : list Z :=
  omap (λ e, match e with FileClose now => Some now | _ => None end) es.

(** The sum of the lengths of the chunks received. *)
Definition data_bytes (es : list event) : Z :=
  foldr (λ e acc,
           match e with
           | OnData chunk => Z.of_nat (length chunk) + acc
           | _ => acc
           end) 0 es.

(** A session is [reached] by the events [es] when every listener ran
    to completion; [d] is the state the decoder is left in. *)
Definition reached (H : helpers) (debug : bool) (fileSize : Z) (start : Z)
    (es : list event) (d : dec_state) (s : session) : Prop :=
  on_events H debug fileSize (session_init start) es = Some s ∧
  dec_run AwaitHeader es = Some d.

(** ** What holds of every state of [run] *)

(** The statistics session [i] resolves, if it resolves. *)
Definition fulfilled_of (play : nat → option settled) (i : nat)
  : option JobResult :=
  match play i with
  | Some (Fulfilled r) => Some r
  | _ => None
  end.

(** The sessions that have settled, in the order they did. *)
Definition settles_of (tr : list tevent) : list nat :=
  omap (λ e, match e with TSettle i => Some i | _ => None end) tr.

(** The error session [i] rejects with, if it rejects. *)
Definition rejected_of (play : nat → option settled) (i : nat)
  : option error :=
  match play i with
  | Some (Rejected err) => Some err
  | _ => None
  end.

(** The error of the first session that rejected. *)
Definition first_rejection (play : nat → option settled)
    (tr : list tevent) : option error :=
  head (omap (rejected_of play) (settles_of tr)).

(** The events between the server's start and its stop: sessions
    starting against [address], and sessions settling. *)
Definition body_event (address : string) (e : tevent) : Prop :=
  match e with
  | TStart _ a => a = address
  | TSettle _ => True
  | _ => False
  end.

Definition is_returned (p : phase) : bool :=
  match p with
  | Returned _ => true
  | _ => false
  end.

Record sched_inv (play : nat → option settled)
    (serverAddress0 : option string) (opts : options) (port : N)
    (s : sched) : Prop := {
  inv_partition :
    (1 ≤ numConcurrent opts)%nat →
    batches_of (trace s)
      ++ chunks (length (jobs s)) (numConcurrent opts) (jobs s)
    = chunks (numIterations opts) (numConcurrent opts)
        (seq 1 (numIterations opts));
  inv_started : started s ++ jobs s = seq 1 (numIterations opts);
  inv_settled : settles_of (trace s) ++ elements (inflight s) ≡ₚ started s;
  inv_last :
    inflight s ⊆ list_to_set (default [] (last (batches_of (trace s))));
  inv_running :
    phase_of s = Running →
    inflight s = awaiting s ∧
    Forall (λ i, is_Some (fulfilled_of play i)) (settles_of (trace s));
  inv_results :
    is_returned (phase_of s) = false →
    results s = omap (fulfilled_of play) (settles_of (trace s));
  inv_first :
    first_rejection play (trace s) =
    match phase_of s with Failed err => Some err | _ => None end;
  inv_returned :
    ∀ stats, phase_of s = Returned stats →
      jobs s = [] ∧ inflight s = ∅ ∧
      Forall (λ i, is_Some (fulfilled_of play i)) (settles_of (trace s)) ∧
      stats = reduce (omap (fulfilled_of play) (settles_of (trace s)));
  inv_trace :
    ∃ body,
      Forall (body_event (serverAddress s)) body ∧
      trace s =
        (if falsy serverAddress0 then [TListen 0 "0.0.0.0"] else [])
        ++ body ++
        (if falsy serverAddress0 && is_returned (phase_of s)
         then [TServerClose] else []);
  inv_server :
    nullServer s =
      if falsy serverAddress0
      then (if is_returned (phase_of s) then ServerClosed else Listening)
      else NoServer;
  inv_address :
    serverAddress s = serverAddress (run_init serverAddress0 opts port)
}.

(** What [run] still has to do: it decreases with every turn. *)
Definition remaining (s : sched) : nat :=
  2 * length (jobs s) + base.size (inflight s)
  + (if is_returned (phase_of s) then 0 else 1).

(** ** What holds of every state of a session *)

(** While the decoder keeps to its event order: the only timeout that
    can be pending is the one [timer] refers to; none is pending while a
    blob is being received; and in debug mode a blob is received with a
    [Hash] object that accepts data. *)
Record session_inv (debug : bool) (d : dec_state) (s : session) : Prop := {
  sinv_only : ∀ handle, is_Some (timers s !! handle) → timer s = Some handle;
  sinv_data : d = AwaitData → timers s = ∅;
  sinv_hash :
    debug = true → d = AwaitData → ∃ msg, dataHash s = Some (Hashing msg)
}.

(** The object a session resolves when it is closed after the events
    [es], read off the events. *)
Definition result_of (fileSize : Z) (es : list event) : JobResult :=
  {| bytesSent := Num fileSize;
     bytesReceived := Num (data_bytes es);
     sendTime := tsub (last (close_times es)) (last (open_times es));
     receiveTime := tsub (last (dataEnd_times es)) (head (header_times es)) |}.

(** A session in which nothing was received yet, and whose result, if it
    has one, says so. *)
Definition nothing_received (s : session) : Prop :=
  receiveStartTime s = None ∧ receiveEndTime s = None ∧ received s = 0 ∧
  ∀ r, resolved s = Some r → bytesReceived r = Num 0 ∧ receiveTime r = NaN.

(** The characters of lowercase hexadecimal. *)
Definition lower_hex (c : ascii) : bool :=
  bool_decide (c ∈ list_ascii_of_string "0123456789abcdef").

(** ** Debug mode and the idle time, read off a session *)

(** The session with what only debug mode touches blanked out: the
    [Hash] object and the text written to standard output. *)
Definition without_debug (s : session) : session :=
  {| timer := timer s;
     received := received s;
     receiveStartTime := receiveStartTime s;
     receiveEndTime := receiveEndTime s;
     sendStartTime := sendStartTime s;
     sendEndTime := sendEndTime s;
     dataHash := None;
     once_header := once_header s;
     timers := timers s;
     next_handle := next_handle s;
     end_calls := end_calls s;
     stdout := EmptyString;
     resolved := resolved s |}.


(** The events of the file and of the outbound debugger: the listeners
    that neither the decoder, the timer nor the socket drive. *)
Definition is_local_event (e : event) : bool :=
  match e with
  | FileOpen _ | FileClose _ | OnDebug _ => true
  | _ => false
  end.

(** The total size of the files the sessions [1..n] send. *)
Definition total_size (worlds : nat → world) (n : nat) : Z :=
  foldr (λ i acc, fileSize (worlds i) + acc) 0 (seq 1 n).

(** ** Sample runs, used to exercise the statements below *)

Definition sample_helpers : helpers :=
  {| GUIDBufferToString := hex;
     parseAndValidateAddressString :=
       λ _ defaultPort, inl {| host := "localhost"; port := defaultPort |};
     DEFAULT_PORT := 8126 |}.

(** Sessions for the sample runs: one whose file is missing, one that
    plays against the local server, which never answers, and one that
    receives a frame. *)
Definition missing_world : world :=
  {| pathExists := false; fileSize := 0; startTime := 0; events := [] |}.

Definition quiet_world : world :=
  {| pathExists := true; fileSize := 100; startTime := 0;
     events := [FileOpen 1; FileClose 3; TimerFires 0 500; OnClose false] |}.

Definition opts_2_1 : options :=
  {| numIterations := 2; numConcurrent := 1;
     verbose := true; debugProtocol := false |}.

Definition opts_3_2 : options :=
  {| numIterations := 3; numConcurrent := 2;
     verbose := true; debugProtocol := false |}.

Definition opts_0 : options :=
  {| numIterations := 0; numConcurrent := 1;
     verbose := true; debugProtocol := false |}.

Definition missing_play (opts : options) : nat → option settled :=
  play_in sample_helpers "missing.bin" None opts 4242 (λ _, missing_world).

Definition quiet_play (opts : options) : nat → option settled :=
  play_in sample_helpers "session.bin" None opts 4242 (λ _, quiet_world).

(** Session 2 of the first batch cannot find the file; the others would
    play to the end. *)
Definition second_fails_play : nat → option settled :=
  play_in sample_helpers "session.bin" None opts_3_2 4242
    (λ i, if decide (i = 2%nat) then missing_world else quiet_world).

Definition state_after (play : nat → option settled) (opts : options)
    (acts : list action) : sched :=
  default (run_init None opts 4242)
    (exec play opts (run_init None opts 4242) acts).

Definition hello_header : header :=
  {| cmd := "+c"; size := Some 10%N;
     guid := replicate 16 x01; hash := replicate 16 xab |}.

(** One frame whose blob is ["helloworld"], received in two chunks. *)
Definition hello_events : list event :=
  frame_events 10 hello_header
    [list_byte_of_string "hello"; list_byte_of_string "world"] 20.


Definition session_after (debug : bool) (es : list event) : session :=
  default (session_init 0)
    (on_events sample_helpers debug 100 (session_init 0) es).

(** A session that sends the file, receives the frame, goes idle, and is
    closed by its own timeout. *)
Definition hello_session : list event :=
  [FileOpen 1; FileClose 3] ++ hello_events ++ [TimerFires 1 520].

Definition opts_2_0 : options :=
  {| numIterations := 2; numConcurrent := 0;
     verbose := true; debugProtocol := false |}.

(** Session 2 never settles: its connection is never closed. *)
Definition second_hangs_play : nat → option settled :=
  play_in sample_helpers "session.bin" None opts_3_2 4242
    (λ i, if decide (i = 2%nat)
          then {| pathExists := true; fileSize := 100; startTime := 0;
                  events := [FileOpen 1; FileClose 3] |}
          else quiet_world).

(** What a session in [quiet_world] resolves. *)
Definition quiet_result : JobResult :=
  {| bytesSent := Num 100; bytesReceived := Num 0;
     sendTime := Num 2; receiveTime := NaN |}.

Definition opts_1_1 : options :=
  {| numIterations := 1; numConcurrent := 1;
     verbose := true; debugProtocol := false |}.

(** * Properties *)

(** ** Numbers and the fold *)

Lemma nadd_comm a b : nadd a b = nadd b a.
Proof. destruct a, b; simpl; f_equal; lia. Qed.

Lemma nadd_assoc a b c : nadd a (nadd b c) = nadd (nadd a b) c.
Proof. destruct a, b, c; simpl; f_equal; lia. Qed.

Lemma nadd_zero_r a : nadd a (Num 0) = a.
Proof. destruct a; simpl; f_equal; lia. Qed.

Lemma nadd_NaN_l a : nadd NaN a = NaN.
Proof. reflexivity. Qed.

Lemma nadd_NaN_r a : nadd a NaN = NaN.
Proof. by destruct a. Qed.

Lemma reducer_comm a b : reducer a b = reducer b a.
Proof. unfold reducer. f_equal; apply nadd_comm. Qed.

Lemma reducer_assoc a b c :
  reducer (reducer a b) c = reducer a (reducer b c).
Proof.
  unfold reducer; simpl. f_equal;
    rewrite <- !nadd_assoc; f_equal; apply nadd_comm.
Qed.

Lemma reduce_mut_fst acc l : (reduce_mut acc l).1 = foldl reducer acc l.
Proof.
  revert acc. induction l as [|cur rest IH]; intros acc; simpl; [done|].
  specialize (IH (reducer acc cur)).
  destruct (reduce_mut (reducer acc cur) rest) as [final rest']. exact IH.
Qed.

(** The array the fold leaves behind holds the running sums. *)
Lemma reduce_mut_snd acc l i r :
  (reduce_mut acc l).2 !! i = Some r → r = foldl reducer acc (take (S i) l).
Proof.
  revert acc i. induction l as [|cur rest IH]; intros acc i; simpl; [done|].
  specialize (IH (reducer acc cur)).
  destruct (reduce_mut (reducer acc cur) rest) as [final rest'].
  destruct i as [|i]; simpl.
  - by intros [= <-].
  - intros Hi. by apply IH.
Qed.

Lemma foldl_reducer_field (f : JobResult → number) acc l :
  (∀ p c, f (reducer p c) = nadd (f c) (f p)) →
  f (foldl reducer acc l) = nadd (sum_field f l) (f acc).
Proof.
  intros Hf. revert acc.
  induction l as [|cur rest IH]; intros acc; simpl.
  - by destruct (f acc).
  - rewrite IH, Hf, nadd_assoc. f_equal. apply nadd_comm.
Qed.

Lemma reduce_is_sum l : reduce l = stats_sum l.
Proof.
  unfold reduce. rewrite reduce_mut_fst. unfold stats_sum.
  pose proof (foldl_reducer_field bytesSent zeroStats l
                (λ _ _, eq_refl)) as H1.
  pose proof (foldl_reducer_field bytesReceived zeroStats l
                (λ _ _, eq_refl)) as H2.
  pose proof (foldl_reducer_field sendTime zeroStats l
                (λ _ _, eq_refl)) as H3.
  pose proof (foldl_reducer_field receiveTime zeroStats l
                (λ _ _, eq_refl)) as H4.
  simpl in *. rewrite nadd_zero_r in H1, H2, H3, H4.
  destruct (foldl reducer zeroStats l); simpl in *. congruence.
Qed.

Lemma sum_field_perm f l l' : l ≡ₚ l' → sum_field f l = sum_field f l'.
Proof.
  induction 1 as [|x l l' _ IH|x y l|l l' l'' _ IH1 _ IH2]; simpl.
  - done.
  - by rewrite IH.
  - rewrite !nadd_assoc. f_equal. apply nadd_comm.
  - congruence.
Qed.

Lemma stats_sum_perm l l' : l ≡ₚ l' → stats_sum l = stats_sum l'.
Proof.
  intros Hp. unfold stats_sum.
  by rewrite !(sum_field_perm _ l l' Hp).
Qed.

Lemma sum_field_NaN f l r : r ∈ l → f r = NaN → sum_field f l = NaN.
Proof.
  induction 1 as [x l|x y l _ IH]; simpl; intros Hr.
  - by rewrite Hr.
  - rewrite IH by done. apply nadd_NaN_r.
Qed.

(** ** Batches *)

Lemma chunks_fuel k n m l :
  (1 ≤ k)%nat → (length l ≤ n)%nat → (length l ≤ m)%nat →
  chunks n k l = chunks m k l.
Proof.
  intros Hk. revert m l.
  induction n as [|n IH]; intros m l Hn Hm.
  - destruct l; [|simpl in Hn; lia]. by destruct m.
  - destruct l as [|x l]; [by destruct m|].
    destruct m as [|m]; [simpl in Hm; lia|].
    cbn [chunks]. f_equal.
    apply IH; rewrite length_drop; simpl in *; lia.
Qed.

Lemma chunks_cons k n x l :
  (1 ≤ k)%nat → (length (x :: l) ≤ n)%nat →
  chunks n k (x :: l) =
  take k (x :: l)
    :: chunks (length (drop k (x :: l))) k (drop k (x :: l)).
Proof.
  intros Hk Hn. destruct n as [|n]; [simpl in Hn; lia|].
  cbn [chunks]. f_equal.
  apply chunks_fuel; [done| |done].
  rewrite length_drop. simpl in *. lia.
Qed.

Lemma chunks_length_le k n l :
  Forall (λ b, (length b ≤ k)%nat) (chunks n k l).
Proof.
  revert l. induction n as [|n IH]; intros l; simpl; [constructor|].
  destruct l as [|x l]; constructor; [|apply IH].
  rewrite length_take. lia.
Qed.

Lemma mjoin_cons {A} (x : list A) (ls : list (list A)) :
  mjoin (x :: ls) = x ++ mjoin ls.
Proof. reflexivity. Qed.

Lemma mjoin_chunks k n l :
  (1 ≤ k)%nat → (length l ≤ n)%nat → mjoin (chunks n k l) = l.
Proof.
  intros Hk. revert l. induction n as [|n IH]; intros l Hn.
  - by destruct l; [|simpl in Hn; lia].
  - destruct l as [|x l]; [done|]. cbn [chunks]. rewrite mjoin_cons.
    rewrite IH; [apply take_drop|].
    rewrite length_drop. simpl in *. lia.
Qed.

(** Batch [j] of [n] jobs is jobs [j*k+1 .. min ((j+1)*k, n)]. *)
Lemma chunks_seq_lookup k fuel a n j b :
  (1 ≤ k)%nat → (n ≤ fuel)%nat →
  chunks fuel k (seq a n) !! j = Some b →
  b = seq (a + j * k) (k `min` (n - j * k)) ∧ (j * k < n)%nat.
Proof.
  intros Hk. revert a n j.
  induction fuel as [|fuel IH]; intros a n j Hn; [done|].
  destruct n as [|n]; [done|].
  change (seq a (S n)) with (a :: seq (S a) n). cbn [chunks].
  change (a :: seq (S a) n) with (seq a (S n)).
  rewrite take_seq, drop_seq.
  destruct j as [|j]; simpl.
  - intros [= <-]. split; [|lia].
    f_equal; lia.
  - intros Hj. apply IH in Hj as [-> Hlt]; [|lia]. split; [|lia].
    f_equal; lia.
Qed.

Lemma build_jobs_seq fuel n m :
  (m + fuel = n)%nat → build_jobs fuel n (seq 1 m) = seq 1 n.
Proof.
  revert m. induction fuel as [|fuel IH]; intros m Hm; simpl.
  - by replace m with n by lia.
  - rewrite length_seq. destruct (decide (m < n)%nat); [|lia].
    replace (seq 1 m ++ [S m]) with (seq 1 (S m)) by (by rewrite seq_S).
    apply IH. lia.
Qed.

Lemma jobs_init serverAddress0 opts port :
  jobs (run_init serverAddress0 opts port) = seq 1 (numIterations opts).
Proof. apply (build_jobs_seq _ _ 0). lia. Qed.

(** ** The invariant of [run] *)

Lemma batches_of_snoc tr e :
  batches_of (tr ++ [e]) =
  batches_of tr ++ match e with TStart next _ => [next] | _ => [] end.
Proof. unfold batches_of. rewrite omap_app. by destruct e. Qed.

Lemma settles_of_snoc tr e :
  settles_of (tr ++ [e]) =
  settles_of tr ++ match e with TSettle i => [i] | _ => [] end.
Proof. unfold settles_of. rewrite omap_app. by destruct e. Qed.

Lemma started_snoc_batch tr next a :
  mjoin (batches_of (tr ++ [TStart next a])) = mjoin (batches_of tr) ++ next.
Proof.
  rewrite batches_of_snoc, join_app. simpl. by rewrite app_nil_r.
Qed.

Lemma elements_remove (X : gset nat) i :
  i ∈ X → elements X ≡ₚ i :: elements (X ∖ {[i]}).
Proof.
  intros Hi.
  rewrite (union_difference_singleton_L i X Hi) at 1.
  apply elements_union_singleton.
  intros [_ Hn]%elem_of_difference. apply Hn. by apply elem_of_singleton.
Qed.

Section run_invariant.
Context (play : nat → option settled) (serverAddress0 : option string)
        (opts : options) (port : N).
Local Abbreviation inv := (sched_inv play serverAddress0 opts port).

Lemma inv_init : inv (run_init serverAddress0 opts port).
Proof.
  pose proof (jobs_init serverAddress0 opts port) as Hjobs.
  split.
  - intros _. rewrite Hjobs, length_seq.
    unfold run_init; simpl. by destruct (falsy serverAddress0).
  - rewrite Hjobs. unfold started, run_init; simpl.
    by destruct (falsy serverAddress0).
  - unfold started, run_init; simpl.
    rewrite elements_empty. by destruct (falsy serverAddress0).
  - unfold run_init; simpl. set_solver.
  - intros _. unfold run_init; simpl. split; [done|].
    destruct (falsy serverAddress0); constructor.
  - intros _. unfold run_init; simpl. by destruct (falsy serverAddress0).
  - unfold run_init; simpl. by destruct (falsy serverAddress0).
  - intros stats. unfold run_init; simpl. done.
  - exists []. split; [constructor|].
    unfold run_init; simpl. by destruct (falsy serverAddress0).
  - unfold run_init; simpl. by destruct (falsy serverAddress0).
  - done.
Qed.

Lemma inv_nodup_jobs s : inv s → NoDup (started s ++ jobs s).
Proof. intros I. rewrite (inv_started _ _ _ _ _ I). apply NoDup_seq. Qed.

Lemma inv_not_returned s i :
  inv s → i ∈ inflight s → is_returned (phase_of s) = false.
Proof.
  intros I Hi. destruct (phase_of s) eqn:Hp; try done.
  destruct (inv_returned _ _ _ _ _ I _ Hp) as (_ & He & _). set_solver.
Qed.

Lemma inv_start_batch s x l :
  inv s → phase_of s = Running → awaiting s = ∅ → jobs s = x :: l →
  inv (start_batch opts s).
Proof.
  intros I Hp Ha Hj.
  destruct (inv_running _ _ _ _ _ I Hp) as [Hin Hall].
  rewrite Ha in Hin.
  pose proof (inv_nodup_jobs s I) as Hnd.
  assert (NoDup (take (numConcurrent opts) (jobs s))) as Hnext.
  { apply NoDup_app in Hnd as (_ & _ & Hnd).
    eapply sublist_NoDup; [done|apply sublist_take]. }
  split; unfold started; simpl.
  - intros Hk. rewrite batches_of_snoc.
    rewrite <- (inv_partition _ _ _ _ _ I Hk).
    rewrite <- app_assoc. f_equal. rewrite Hj.
    rewrite (chunks_cons _ (length (x :: l))); [done..|lia].
  - rewrite started_snoc_batch, <- app_assoc, take_drop.
    apply (inv_started _ _ _ _ _ I).
  - rewrite started_snoc_batch, settles_of_snoc, app_nil_r, Hin.
    rewrite (left_id_L ∅ (∪)), elements_list_to_set by done.
    pose proof (inv_settled _ _ _ _ _ I) as Hs.
    rewrite Hin, elements_empty, app_nil_r in Hs.
    by rewrite Hs.
  - rewrite batches_of_snoc, last_snoc. simpl. set_solver.
  - intros _. rewrite settles_of_snoc, app_nil_r. split; [|done].
    rewrite Hin. set_solver.
  - intros _. rewrite settles_of_snoc, app_nil_r.
    apply (inv_results _ _ _ _ _ I). by rewrite Hp.
  - unfold first_rejection. rewrite settles_of_snoc, app_nil_r.
    apply (inv_first _ _ _ _ _ I).
  - intros stats He. congruence.
  - destruct (inv_trace _ _ _ _ _ I) as (body & Hb & Ht).
    exists (body ++ [TStart (take (numConcurrent opts) (jobs s))
                       (serverAddress s)]).
    split; [apply Forall_app; split; [done|by repeat constructor]|].
    rewrite Ht, Hp. simpl. rewrite andb_false_r, !app_nil_r.
    by rewrite app_assoc.
  - apply (inv_server _ _ _ _ _ I).
  - apply (inv_address _ _ _ _ _ I).
Qed.

Lemma inv_finish s :
  inv s → phase_of s = Running → awaiting s = ∅ → jobs s = [] →
  inv (finish s).
Proof.
  intros I Hp Ha Hj.
  destruct (inv_running _ _ _ _ _ I Hp) as [Hin Hall].
  rewrite Ha in Hin.
  pose proof (inv_results _ _ _ _ _ I) as Hres.
  rewrite Hp in Hres. specialize (Hres eq_refl).
  pose proof (inv_server _ _ _ _ _ I) as Hsrv. rewrite Hp in Hsrv.
  assert (batches_of
            (trace s ++
             match nullServer s with
             | NoServer => []
             | _ => [TServerClose]
             end) = batches_of (trace s)) as Hb.
  { destruct (nullServer s); [by rewrite app_nil_r|..];
      by rewrite batches_of_snoc, app_nil_r. }
  assert (settles_of
            (trace s ++
             match nullServer s with
             | NoServer => []
             | _ => [TServerClose]
             end) = settles_of (trace s)) as Hs.
  { destruct (nullServer s); [by rewrite app_nil_r|..];
      by rewrite settles_of_snoc, app_nil_r. }
  unfold finish.
  pose proof (reduce_mut_fst zeroStats (results s)) as Hfst.
  destruct (reduce_mut zeroStats (results s)) as [stats arr] eqn:Hred.
  simpl in Hfst.
  split; unfold started; simpl; rewrite ?Hb, ?Hs.
  - apply (inv_partition _ _ _ _ _ I).
  - apply (inv_started _ _ _ _ _ I).
  - apply (inv_settled _ _ _ _ _ I).
  - apply (inv_last _ _ _ _ _ I).
  - done.
  - done.
  - unfold first_rejection. rewrite Hs.
    pose proof (inv_first _ _ _ _ _ I) as Hfr. by rewrite Hp in Hfr.
  - intros stats' [= <-]. repeat split; try done.
    unfold reduce. by rewrite <- Hres, Hred.
  - destruct (inv_trace _ _ _ _ _ I) as (body & Hbody & Ht).
    exists body. split; [done|].
    rewrite Ht, Hp, Hsrv. simpl. rewrite andb_false_r, andb_true_r, !app_nil_r.
    destruct (falsy serverAddress0); simpl; by rewrite ?app_nil_r.
  - rewrite Hsrv. by destruct (falsy serverAddress0).
  - apply (inv_address _ _ _ _ _ I).
Qed.

Lemma inv_fulfil s i stats :
  inv s → i ∈ inflight s → play i = Some (Fulfilled stats) →
  inv (fulfil i stats s).
Proof.
  intros I Hi Hplay.
  pose proof (inv_not_returned s i I Hi) as Hnr.
  assert (fulfilled_of play i = Some stats) as Hf
    by (unfold fulfilled_of; by rewrite Hplay).
  split; unfold started; simpl;
    rewrite ?batches_of_snoc, ?settles_of_snoc, ?app_nil_r.
  - apply (inv_partition _ _ _ _ _ I).
  - apply (inv_started _ _ _ _ _ I).
  - rewrite <- (inv_settled _ _ _ _ _ I), <- app_assoc.
    apply Permutation_app_head. simpl. symmetry. by apply elements_remove.
  - pose proof (inv_last _ _ _ _ _ I). set_solver.
  - intros Hp. destruct (inv_running _ _ _ _ _ I Hp) as [Hin Hall].
    split; [by rewrite Hin|].
    apply Forall_app. split; [done|]. constructor; [by rewrite Hf|constructor].
  - intros _. rewrite omap_app, (inv_results _ _ _ _ _ I Hnr). simpl.
    by rewrite Hf.
  - unfold first_rejection. rewrite settles_of_snoc, omap_app. simpl.
    assert (rejected_of play i = None) as ->
      by (unfold rejected_of; by rewrite Hplay).
    rewrite app_nil_r. apply (inv_first _ _ _ _ _ I).
  - intros stats' He. by rewrite He in Hnr.
  - destruct (inv_trace _ _ _ _ _ I) as (body & Hbody & Ht).
    exists (body ++ [TSettle i]).
    split; [apply Forall_app; split; [done|by repeat constructor]|].
    rewrite Ht, Hnr. rewrite andb_false_r, !app_nil_r.
    by rewrite app_assoc.
  - apply (inv_server _ _ _ _ _ I).
  - apply (inv_address _ _ _ _ _ I).
Qed.

Lemma inv_reject s i err :
  inv s → i ∈ inflight s → play i = Some (Rejected err) →
  inv (reject i err s).
Proof.
  intros I Hi Hplay.
  pose proof (inv_not_returned s i I Hi) as Hnr.
  assert (fulfilled_of play i = None) as Hf
    by (unfold fulfilled_of; by rewrite Hplay).
  assert (is_returned
            (match phase_of s with Running => Failed err | p => p end)
          = false) as Hnr'
    by (by destruct (phase_of s)).
  split; unfold started; simpl;
    rewrite ?batches_of_snoc, ?settles_of_snoc, ?app_nil_r.
  - apply (inv_partition _ _ _ _ _ I).
  - apply (inv_started _ _ _ _ _ I).
  - rewrite <- (inv_settled _ _ _ _ _ I), <- app_assoc.
    apply Permutation_app_head. simpl. symmetry. by apply elements_remove.
  - pose proof (inv_last _ _ _ _ _ I). set_solver.
  - intros Hp. by destruct (phase_of s).
  - intros _. rewrite omap_app, (inv_results _ _ _ _ _ I Hnr). simpl.
    by rewrite Hf, app_nil_r.
  - unfold first_rejection. rewrite settles_of_snoc, omap_app. simpl.
    assert (rejected_of play i = Some err) as ->
      by (unfold rejected_of; by rewrite Hplay).
    pose proof (inv_first _ _ _ _ _ I) as Hfr. unfold first_rejection in Hfr.
    destruct (omap (rejected_of play) (settles_of (trace s))) as [|e0 l];
      simpl in *; by destruct (phase_of s).
  - intros stats' He. by rewrite He in Hnr'.
  - destruct (inv_trace _ _ _ _ _ I) as (body & Hbody & Ht).
    exists (body ++ [TSettle i]).
    split; [apply Forall_app; split; [done|by repeat constructor]|].
    rewrite Ht, Hnr, Hnr'. rewrite andb_false_r, !app_nil_r.
    by rewrite app_assoc.
  - rewrite Hnr'. rewrite (inv_server _ _ _ _ _ I). by rewrite Hnr.
  - apply (inv_address _ _ _ _ _ I).
Qed.

Lemma inv_step s a s' : inv s → step play opts s a = Some s' → inv s'.
Proof.
  intros I. destruct a as [|i]; simpl.
  - destruct (phase_of s) eqn:Hp; try done.
    destruct (decide (awaiting s = ∅)) as [Ha|]; [|done].
    destruct (jobs s) as [|x l] eqn:Hj; intros [= <-].
    + by apply inv_finish.
    + by eapply inv_start_batch.
  - destruct (decide (i ∈ inflight s)) as [Hi|]; [|done].
    destruct (play i) as [[stats|err]|] eqn:Hplay; intros [= <-].
    + by apply inv_fulfil.
    + by apply inv_reject.
Qed.

Lemma inv_exec acts : ∀ s s',
  inv s → exec play opts s acts = Some s' → inv s'.
Proof.
  induction acts as [|a acts IH]; intros s s' I; simpl.
  - by intros [= <-].
  - destruct (step play opts s a) as [s1|] eqn:Hs; [|done].
    apply IH. by eapply inv_step.
Qed.

Lemma inv_reachable s :
  reachable play serverAddress0 opts port s → inv s.
Proof. intros [acts Hacts]. eapply inv_exec; [apply inv_init|done]. Qed.
End run_invariant.

(** ** A run in which every session resolves returns *)

Lemma exec_app play opts s acts1 acts2 :
  exec play opts s (acts1 ++ acts2) =
  exec play opts s acts1 ≫= λ s', exec play opts s' acts2.
Proof.
  revert s. induction acts1 as [|a acts1 IH]; intros s; simpl; [done|].
  destruct (step play opts s a); [apply IH|done].
Qed.

Lemma exec_settle_batch play opts rest : ∀ s,
  NoDup rest →
  Forall (λ i, is_Some (fulfilled_of play i)) rest →
  phase_of s = Running →
  inflight s = list_to_set rest →
  awaiting s = list_to_set rest →
  ∃ s', exec play opts s (Settle <$> rest) = Some s' ∧
        phase_of s' = Running ∧ inflight s' = ∅ ∧ awaiting s' = ∅ ∧
        jobs s' = jobs s.
Proof.
  induction rest as [|x rest IH]; intros s Hnd Hall Hp Hin Ha.
  - exists s. by repeat split.
  - apply NoDup_cons in Hnd as [Hx Hnd].
    apply Forall_cons in Hall as [[r Hr] Hall].
    unfold fulfilled_of in Hr.
    destruct (play x) as [[stats|err]|] eqn:Hplay; try done.
    destruct (IH (fulfil x stats s)) as (s' & Hex & Hs'); try done.
    + simpl. rewrite Hin. set_solver.
    + simpl. rewrite Ha. set_solver.
    + exists s'. split; [|done].
      cbn [fmap list_fmap exec step].
      rewrite decide_True by (rewrite Hin; set_solver).
      by rewrite Hplay.
Qed.

Lemma exec_drain play opts fuel : ∀ l s,
  (1 ≤ numConcurrent opts)%nat →
  (length l ≤ fuel)%nat →
  NoDup l →
  Forall (λ i, is_Some (fulfilled_of play i)) l →
  phase_of s = Running → inflight s = ∅ → awaiting s = ∅ → jobs s = l →
  ∃ s', exec play opts s
          (mjoin ((λ b, Resume :: (Settle <$> b))
                    <$> chunks fuel (numConcurrent opts) l) ++ [Resume])
        = Some s' ∧ is_returned (phase_of s') = true.
Proof.
  induction fuel as [|fuel IH]; intros l s Hk Hlen Hnd Hall Hp Hin Ha Hj.
  - destruct l; [|simpl in Hlen; lia].
    exists (finish s). simpl. rewrite Hp, Ha, Hj.
    rewrite decide_True by done. split; [done|].
    unfold finish. by destruct (reduce_mut zeroStats (results s)).
  - destruct l as [|x l].
    + exists (finish s). simpl. rewrite Hp, Ha, Hj.
      rewrite decide_True by done. split; [done|].
      unfold finish. by destruct (reduce_mut zeroStats (results s)).
    + cbn [chunks fmap list_fmap]. rewrite mjoin_cons.
      set (next := take (numConcurrent opts) (x :: l)).
      set (rest := drop (numConcurrent opts) (x :: l)).
      assert (NoDup next) as Hnext
        by (eapply sublist_NoDup; [exact Hnd|apply sublist_take]).
      assert (NoDup rest) as Hrest
        by (eapply sublist_NoDup; [exact Hnd|apply sublist_drop]).
      destruct (exec_settle_batch play opts next (start_batch opts s))
        as (s1 & Hex1 & Hp1 & Hin1 & Ha1 & Hj1); try done.
      { eapply Forall_take in Hall. exact Hall. }
      { simpl. rewrite Hin, Hj. fold next. set_solver. }
      { simpl. by rewrite Hj. }
      destruct (IH rest s1) as (s' & Hex & Hret); try done.
      { unfold rest. rewrite length_drop. simpl in *. lia. }
      { eapply Forall_drop in Hall. exact Hall. }
      { rewrite Hj1. simpl. by rewrite Hj. }
      exists s'. split; [|done].
      rewrite <- app_assoc. cbn [app exec step].
      rewrite Hp, Ha, Hj. rewrite decide_True by done.
      rewrite exec_app, Hex1. exact Hex.
Qed.

Lemma fifo_returns play serverAddress0 opts port :
  (1 ≤ numConcurrent opts)%nat →
  (∀ i, (1 ≤ i ≤ numIterations opts)%nat → is_Some (fulfilled_of play i)) →
  ∃ s, exec play opts (run_init serverAddress0 opts port)
         (fifo (numIterations opts) (numConcurrent opts)) = Some s ∧
       is_returned (phase_of s) = true.
Proof.
  intros Hk Hall. unfold fifo.
  apply exec_drain; try done.
  - by rewrite length_seq.
  - apply NoDup_seq.
  - apply Forall_forall. intros i Hi%elem_of_seq. apply Hall. lia.
  - apply jobs_init.
Qed.

(** ** [run] is never stuck and cannot go on for ever *)

Lemma size_remove (X : gset nat) i :
  i ∈ X → base.size X = S (base.size (X ∖ {[i]})).
Proof.
  intros Hi. rewrite (union_difference_singleton_L i X Hi) at 1.
  rewrite size_union, size_singleton; [done|]. set_solver.
Qed.

Lemma step_remaining play serverAddress0 opts port s a s' :
  (1 ≤ numConcurrent opts)%nat →
  sched_inv play serverAddress0 opts port s →
  step play opts s a = Some s' →
  (remaining s' < remaining s)%nat.
Proof.
  intros Hk I Hstep. unfold remaining.
  destruct a as [|i]; simpl in Hstep.
  - destruct (phase_of s) eqn:Hp; try done.
    destruct (decide (awaiting s = ∅)) as [Ha|]; [|done].
    destruct (inv_running _ _ _ _ _ I Hp) as [Hin _]. rewrite Ha in Hin.
    pose proof (inv_nodup_jobs _ _ _ _ _ I) as Hnd.
    destruct (jobs s) as [|x l] eqn:Hj; injection Hstep as <-.
    + unfold finish. destruct (reduce_mut zeroStats (results s)).
      cbn [jobs inflight phase_of is_returned]. rewrite Hj, Hin, size_empty.
      simpl. lia.
    + cbn [start_batch jobs inflight phase_of].
      rewrite Hp, Hin, (left_id_L ∅ (∪)), size_empty.
      rewrite size_list_to_set.
      * rewrite length_take, length_drop, Hj. cbn [is_returned length]. lia.
      * apply NoDup_app in Hnd as (_ & _ & Hnd). rewrite Hj.
        eapply sublist_NoDup; [exact Hnd|apply sublist_take].
  - destruct (decide (i ∈ inflight s)) as [Hi|]; [|done].
    pose proof (inv_not_returned _ _ _ _ _ _ I Hi) as Hnr.
    rewrite (size_remove _ _ Hi), Hnr.
    destruct (play i) as [[stats|err]|]; [| |done];
      injection Hstep as <-; cbn [fulfil reject jobs inflight phase_of].
    + rewrite Hnr. lia.
    + destruct (phase_of s); cbn [is_returned]; try done; lia.
Qed.

(** No schedule of [run] is longer than twice the number of jobs plus
    one. *)
Lemma exec_bounded play serverAddress0 opts port acts : ∀ s s',
  (1 ≤ numConcurrent opts)%nat →
  sched_inv play serverAddress0 opts port s →
  exec play opts s acts = Some s' →
  (length acts + remaining s' ≤ remaining s)%nat.
Proof.
  induction acts as [|a acts IH]; intros s s' Hk I; simpl.
  - intros [= <-]. lia.
  - destruct (step play opts s a) as [s1|] eqn:Hs; [|done]. intros Hex.
    pose proof (step_remaining _ _ _ _ _ _ _ Hk I Hs).
    pose proof (IH _ _ Hk (inv_step _ _ _ _ _ _ _ I Hs) Hex). lia.
Qed.

(** While every session resolves, [run] is returned or can take a
    turn. *)
Lemma run_progress play serverAddress0 opts port s :
  (∀ i, (1 ≤ i ≤ numIterations opts)%nat → is_Some (fulfilled_of play i)) →
  sched_inv play serverAddress0 opts port s →
  is_returned (phase_of s) = true ∨ ∃ a s', step play opts s a = Some s'.
Proof.
  intros Hall I.
  assert (∀ i, i ∈ started s → is_Some (fulfilled_of play i)) as Hstarted.
  { intros i Hi. apply Hall.
    assert (i ∈ seq 1 (numIterations opts)) as Hin
      by (rewrite <- (inv_started _ _ _ _ _ I); apply elem_of_app; by left).
    apply elem_of_seq in Hin. lia. }
  destruct (decide (inflight s = ∅)) as [Hempty|Hne].
  - destruct (phase_of s) as [|err|stats] eqn:Hp.
    + right. exists Resume. simpl. rewrite Hp.
      destruct (inv_running _ _ _ _ _ I Hp) as [Hin _].
      rewrite decide_True by congruence.
      destruct (jobs s); by eexists.
    + exfalso. pose proof (inv_first _ _ _ _ _ I) as Hfirst.
      rewrite Hp in Hfirst. unfold first_rejection in Hfirst.
      apply head_Some_elem_of in Hfirst.
      apply list_elem_of_omap in Hfirst as (i & Hi & Hrej).
      assert (i ∈ started s) as Hst.
      { rewrite <- (inv_settled _ _ _ _ _ I). apply elem_of_app. by left. }
      destruct (Hstarted i Hst) as [r Hr].
      unfold rejected_of in Hrej. unfold fulfilled_of in Hr.
      by destruct (play i) as [[]|].
    + by left.
  - right. apply set_choose_L in Hne as [i Hi].
    assert (i ∈ started s) as Hst.
    { rewrite <- (inv_settled _ _ _ _ _ I). apply elem_of_app. right.
      by apply elem_of_elements. }
    destruct (Hstarted i Hst) as [r Hr]. unfold fulfilled_of in Hr.
    exists (Settle i). simpl. rewrite decide_True by done.
    destruct (play i) as [[stats|err]|]; try done. by eexists.
Qed.

(** ** What [run] guarantees *)

Lemma chunks_NoDup k n l : NoDup l → Forall NoDup (chunks n k l).
Proof.
  revert l. induction n as [|n IH]; intros l Hnd; simpl; [constructor|].
  destruct l as [|x l]; constructor.
  - eapply sublist_NoDup; [exact Hnd|apply sublist_take].
  - apply IH. eapply sublist_NoDup; [exact Hnd|apply sublist_drop].
Qed.

Lemma inflight_bounded play serverAddress0 opts port s :
  (1 ≤ numConcurrent opts)%nat →
  sched_inv play serverAddress0 opts port s →
  (base.size (inflight s) ≤ numConcurrent opts)%nat.
Proof.
  intros Hk I.
  pose proof (inv_last _ _ _ _ _ I) as Hlast.
  pose proof (inv_partition _ _ _ _ _ I Hk) as Hpart.
  destruct (last (batches_of (trace s))) as [b|] eqn:Hb; simpl in Hlast.
  - apply last_Some_elem_of in Hb.
    assert (b ∈ chunks (numIterations opts) (numConcurrent opts)
                  (seq 1 (numIterations opts))) as Hin
      by (rewrite <- Hpart; apply elem_of_app; by left).
    pose proof (chunks_length_le (numConcurrent opts) (numIterations opts)
                  (seq 1 (numIterations opts))) as Hlen.
    pose proof (chunks_NoDup (numConcurrent opts) (numIterations opts)
                  (seq 1 (numIterations opts)) (NoDup_seq _ _)) as Hnd.
    rewrite Forall_forall in Hlen, Hnd.
    apply subseteq_size in Hlast.
    rewrite size_list_to_set in Hlast by by apply Hnd.
    specialize (Hlen b Hin). simpl in Hlen. lia.
  - apply subseteq_size in Hlast.
    change (list_to_set []) with (∅ : gset nat) in Hlast.
    rewrite size_empty in Hlast. lia.
Qed.

Lemma omap_Forall2 {A B} (f : A → option B) l :
  Forall (λ x, is_Some (f x)) l → Forall2 (λ x y, f x = Some y) l (omap f l).
Proof.
  induction 1 as [|x l [y Hy] _ IH]; simpl; [constructor|].
  rewrite Hy. by constructor.
Qed.

Lemma fulfilled_of_Some play i r :
  fulfilled_of play i = Some r → play i = Some (Fulfilled r).
Proof.
  unfold fulfilled_of. destruct (play i) as [[]|]; congruence.
Qed.

(** When [run] has returned, every job was started and resolved; the
    value returned is the fold of the results in the order the sessions
    settled, and it is the sum of the results in job order. *)
Lemma reachable_returned play serverAddress0 opts port s stats :
  reachable play serverAddress0 opts port s →
  phase_of s = Returned stats →
  jobs s = [] ∧ inflight s = ∅ ∧
  started s = seq 1 (numIterations opts) ∧
  settles_of (trace s) ≡ₚ seq 1 (numIterations opts) ∧
  stats = reduce (omap (fulfilled_of play) (settles_of (trace s))) ∧
  ∃ rs,
    Forall2 (λ i r, play i = Some (Fulfilled r))
      (seq 1 (numIterations opts)) rs ∧
    omap (fulfilled_of play) (settles_of (trace s)) ≡ₚ rs ∧
    stats = stats_sum rs.
Proof.
  intros Hr Hp. apply inv_reachable in Hr as I.
  destruct (inv_returned _ _ _ _ _ I _ Hp) as (Hj & Hin & Hall & ->).
  pose proof (inv_started _ _ _ _ _ I) as Hst.
  rewrite Hj, app_nil_r in Hst.
  pose proof (inv_settled _ _ _ _ _ I) as Hperm.
  rewrite Hin, elements_empty, app_nil_r, Hst in Hperm.
  repeat split; try done.
  exists (omap (fulfilled_of play) (seq 1 (numIterations opts))).
  split; [|split].
  - eapply Forall2_impl;
      [apply omap_Forall2|intros i r; apply fulfilled_of_Some].
    by rewrite <- Hperm.
  - by rewrite Hperm.
  - rewrite reduce_is_sum. apply stats_sum_perm. by rewrite Hperm.
Qed.

(** Once [run] has failed it stays failed, with the same error, and
    starts nothing more. *)
Lemma failed_step play opts s a s' err :
  phase_of s = Failed err → step play opts s a = Some s' →
  phase_of s' = Failed err ∧ jobs s' = jobs s ∧
  batches_of (trace s') = batches_of (trace s) ∧
  nullServer s' = nullServer s.
Proof.
  intros Hp. destruct a as [|i]; simpl.
  - by rewrite Hp.
  - destruct (decide (i ∈ inflight s)); [|done].
    destruct (play i) as [[stats|err']|]; intros [= <-]; simpl;
      rewrite ?Hp, batches_of_snoc, app_nil_r; done.
Qed.

Lemma failed_exec play opts acts : ∀ s s' err,
  phase_of s = Failed err → exec play opts s acts = Some s' →
  phase_of s' = Failed err ∧ jobs s' = jobs s ∧
  batches_of (trace s') = batches_of (trace s) ∧
  nullServer s' = nullServer s.
Proof.
  induction acts as [|a acts IH]; intros s s' err Hp; simpl.
  - by intros [= <-].
  - destruct (step play opts s a) as [s1|] eqn:Hs; [|done].
    destruct (failed_step _ _ _ _ _ _ Hp Hs) as (Hp1 & Hj1 & Hb1 & Hn1).
    intros Hex. destruct (IH _ _ _ Hp1 Hex) as (? & ? & ? & ?).
    repeat split; congruence.
Qed.

Lemma terminal_failed play opts s err :
  phase_of s = Failed err → inflight s = ∅ →
  ∀ a, step play opts s a = None.
Proof.
  intros Hp Hin [|i]; simpl.
  - by rewrite Hp.
  - rewrite decide_False; [done|]. rewrite Hin. set_solver.
Qed.

(** C1, as stated, fails: with two iterations, one at a time, and a file
    that cannot be found, the first session rejects, [run] is over, and
    one session was started, not two. *)
Lemma run_started_all_counterexample :
  reachable (missing_play opts_2_1) None opts_2_1 4242
    (state_after (missing_play opts_2_1) opts_2_1 [Resume; Settle 1%nat]) ∧
  (∀ a, step (missing_play opts_2_1) opts_2_1
          (state_after (missing_play opts_2_1) opts_2_1
             [Resume; Settle 1%nat]) a = None) ∧
  started (state_after (missing_play opts_2_1) opts_2_1
             [Resume; Settle 1%nat]) = [1%nat] ∧
  length (started (state_after (missing_play opts_2_1) opts_2_1
                     [Resume; Settle 1%nat])) ≠ numIterations opts_2_1.
Proof.
  split; [|split; [|split]].
  - exists [Resume; Settle 1%nat]. by vm_compute.
  - apply (terminal_failed _ _ _ (Error "Cannot find missing.bin")).
    + by vm_compute.
    + by vm_compute.
  - by vm_compute.
  - by vm_compute.
Qed.

(** C1 (amended).  For every iteration count and every concurrency limit
    of at least 1: batch [j] is jobs [j*k+1 .. min((j+1)*k, n)], started
    in one turn; the sessions in flight all belong to the latest batch, so
    there are never more than [k]; a batch is started only when no session
    is in flight.  All [n] sessions have been started when [run] returns
    (at most [n] otherwise: once [run] has failed no further session is
    started).  [run] takes at most [2n+1] turns; when every
    session resolves it is never stuck before it has returned, in
    whatever order the sessions settle, and settling them in job order is
    one way to get there. *)
Theorem run_batches_bounded play serverAddress0 opts port :
  (1 ≤ numConcurrent opts)%nat →
  (∀ s, reachable play serverAddress0 opts port s →
     (∀ j b, batches_of (trace s) !! j = Some b →
        b = seq (1 + j * numConcurrent opts)
              (numConcurrent opts
                 `min` (numIterations opts - j * numConcurrent opts)) ∧
        (j * numConcurrent opts < numIterations opts)%nat) ∧
     started s ++ jobs s = seq 1 (numIterations opts) ∧
     inflight s ⊆ list_to_set (default [] (last (batches_of (trace s)))) ∧
     (base.size (inflight s) ≤ numConcurrent opts)%nat ∧
     (∀ s', step play opts s Resume = Some s' →
        inflight s = ∅ ∧
        (jobs s ≠ [] →
         inflight s' = list_to_set (take (numConcurrent opts) (jobs s)) ∧
         trace s' =
           trace s ++ [TStart (take (numConcurrent opts) (jobs s))
                         (serverAddress s)])) ∧
     (length (started s) ≤ numIterations opts)%nat ∧
     (∀ stats, phase_of s = Returned stats →
        started s = seq 1 (numIterations opts) ∧
        length (started s) = numIterations opts) ∧
     (∀ err acts s', phase_of s = Failed err →
        exec play opts s acts = Some s' → started s' = started s)) ∧
  (∀ acts s,
     exec play opts (run_init serverAddress0 opts port) acts = Some s →
     (length acts ≤ 2 * numIterations opts + 1)%nat) ∧
  ((∀ i, (1 ≤ i ≤ numIterations opts)%nat → is_Some (fulfilled_of play i)) →
   (∃ s, exec play opts (run_init serverAddress0 opts port)
           (fifo (numIterations opts) (numConcurrent opts)) = Some s ∧
         is_returned (phase_of s) = true ∧
         length (started s) = numIterations opts) ∧
   (∀ s, reachable play serverAddress0 opts port s →
      is_returned (phase_of s) = true ∨
      ∃ a s', step play opts s a = Some s')).
Proof.
  intros Hk. split; [|split].
  - intros s Hr. pose proof (inv_reachable _ _ _ _ _ Hr) as I.
    pose proof (inv_started _ _ _ _ _ I) as Hst.
    split; [|split; [exact Hst|split; [apply (inv_last _ _ _ _ _ I)|]]].
    { intros j b Hb.
      eapply chunks_seq_lookup; [exact Hk|reflexivity|].
      rewrite <- (inv_partition _ _ _ _ _ I Hk).
      by apply lookup_app_l_Some. }
    split; [by eapply inflight_bounded|].
    split; [|split].
    + intros s' Hstep. simpl in Hstep.
      destruct (phase_of s) eqn:Hp; try done.
      destruct (decide (awaiting s = ∅)) as [Ha|]; [|done].
      destruct (inv_running _ _ _ _ _ I Hp) as [Hin _].
      rewrite Ha in Hin. split; [done|]. intros Hne.
      destruct (jobs s) as [|x l] eqn:Hj; [done|].
      injection Hstep as <-. simpl. rewrite Hin, Hj.
      split; [|done]. apply (left_id_L ∅ (∪)).
    + apply (f_equal length) in Hst.
      rewrite length_app, length_seq in Hst. lia.
    + split.
      * intros stats Hp.
        destruct (reachable_returned _ _ _ _ _ _ Hr Hp) as (_ & _ & -> & _).
        split; [done|apply length_seq].
      * intros err acts s' Hp Hex.
        destruct (failed_exec _ _ _ _ _ _ Hp Hex) as (_ & _ & Hb & _).
        unfold started. by rewrite Hb.
  - intros acts s Hex.
    pose proof (exec_bounded _ _ _ _ _ _ _ Hk
                  (inv_init play serverAddress0 opts port) Hex) as Hb.
    assert (remaining (run_init serverAddress0 opts port)
            = (2 * numIterations opts + 1)%nat) as Hinit.
    { unfold remaining. rewrite jobs_init, length_seq.
      cbn [run_init inflight phase_of is_returned].
      rewrite size_empty. lia. }
    lia.
  - intros Hall. split.
    + destruct (fifo_returns play serverAddress0 opts port Hk Hall)
        as (s & Hex & Hret).
      assert (reachable play serverAddress0 opts port s) as Hr
        by by eexists.
      exists s. split; [done|]. split; [done|].
      destruct (phase_of s) as [| |stats] eqn:Hp; try done.
      destruct (reachable_returned _ _ _ _ _ _ Hr Hp) as (_ & _ & -> & _).
      apply length_seq.
    + intros s Hr. eapply run_progress; [done|].
      by apply inv_reachable.
Qed.

Lemma run_batches_bounded_witness :
  ∃ s, exec (quiet_play opts_3_2) opts_3_2 (run_init None opts_3_2 4242)
         (fifo (numIterations opts_3_2) (numConcurrent opts_3_2)) = Some s ∧
       is_returned (phase_of s) = true ∧
       length (started s) = numIterations opts_3_2.
Proof.
  apply (run_batches_bounded (quiet_play opts_3_2) None opts_3_2 4242).
  - simpl. lia.
  - intros i _. vm_compute. eexists. reflexivity.
Defined.



(** C3.  When [run] returns, every job resolved.  The value returned is
    the fold of the results in the order the sessions settled, and it is
    the field-by-field sum of what the sessions resolved, taken in job
    order; folding those results in any other order gives the same
    value.  The callback of the fold is commutative and associative. *)
Theorem run_aggregate_is_sum play serverAddress0 opts port s stats :
  reachable play serverAddress0 opts port s →
  phase_of s = Returned stats →
  (∀ a b, reducer a b = reducer b a) ∧
  (∀ a b c, reducer (reducer a b) c = reducer a (reducer b c)) ∧
  stats = reduce (omap (fulfilled_of play) (settles_of (trace s))) ∧
  ∃ rs,
    Forall2 (λ i r, play i = Some (Fulfilled r))
      (seq 1 (numIterations opts)) rs ∧
    omap (fulfilled_of play) (settles_of (trace s)) ≡ₚ rs ∧
    stats = stats_sum rs ∧
    ∀ rs', rs' ≡ₚ rs → reduce rs' = stats.
Proof.
  intros Hr Hp.
  destruct (reachable_returned _ _ _ _ _ _ Hr Hp)
    as (_ & _ & _ & _ & Hfold & rs & Hrs & Hperm & Hsum).
  split; [apply reducer_comm|]. split; [apply reducer_assoc|].
  split; [done|].
  exists rs. repeat split; try done.
  intros rs' Hperm'. rewrite reduce_is_sum, Hsum. by apply stats_sum_perm.
Qed.

Lemma run_aggregate_is_sum_witness :
  ∃ rs,
    Forall2 (λ i r, quiet_play opts_3_2 i = Some (Fulfilled r))
      (seq 1 (numIterations opts_3_2)) rs ∧
    omap (fulfilled_of (quiet_play opts_3_2))
      (settles_of
         (trace (state_after (quiet_play opts_3_2) opts_3_2 (fifo 3 2))))
    ≡ₚ rs ∧
    {| bytesSent := Num 300; bytesReceived := Num 0;
       sendTime := Num 6; receiveTime := NaN |} = stats_sum rs ∧
    ∀ rs', rs' ≡ₚ rs →
      reduce rs' = {| bytesSent := Num 300; bytesReceived := Num 0;
                      sendTime := Num 6; receiveTime := NaN |}.
Proof.
  apply (run_aggregate_is_sum (quiet_play opts_3_2) None opts_3_2 4242
           (state_after (quiet_play opts_3_2) opts_3_2 (fifo 3 2))).
  - exists (fifo 3 2). by vm_compute.
  - by vm_compute.
Defined.

(** With no iterations there are two states: before and after the code
    that follows the loop. *)
Lemma reachable_zero play serverAddress0 opts port s :
  numIterations opts = 0%nat →
  reachable play serverAddress0 opts port s →
  s = run_init serverAddress0 opts port ∨
  s = finish (run_init serverAddress0 opts port).
Proof.
  intros Hn [acts Hex].
  destruct acts as [|a acts]; [left; by injection Hex|]. right.
  revert Hex. unfold run_init. rewrite Hn. simpl.
  destruct a as [|i]; simpl; [|done].
  destruct acts as [|a acts]; [by intros [= <-]|].
  by destruct a.
Qed.

(** C6, as stated, fails: with no server address and no iterations,
    [run] returns zero statistics, but it has put a server on a port and
    closed it again. *)
Lemma zero_iterations_io_counterexample :
  numIterations opts_0 = 0%nat ∧
  exec (quiet_play opts_0) opts_0 (run_init None opts_0 4242) [Resume] =
    Some (state_after (quiet_play opts_0) opts_0 [Resume]) ∧
  phase_of (state_after (quiet_play opts_0) opts_0 [Resume]) =
    Returned zeroStats ∧
  trace (state_after (quiet_play opts_0) opts_0 [Resume]) =
    [TListen 0 "0.0.0.0"; TServerClose] ∧
  trace (state_after (quiet_play opts_0) opts_0 [Resume]) ≠ [].
Proof. by vm_compute. Qed.

(** C6 (amended).  With no iterations [run] returns, and returns zero in
    all four fields; no session is ever started, so no connection is
    opened and nothing is sent or received.  When a server address was
    given, [run] does nothing observable at all; when none was given, it
    starts the local server and closes it again, and does nothing else. *)
Theorem zero_iterations play serverAddress0 opts port :
  numIterations opts = 0%nat →
  run play serverAddress0 opts port [Resume] = Some (Returned zeroStats) ∧
  (∃ s, exec play opts (run_init serverAddress0 opts port) [Resume] = Some s ∧
        phase_of s = Returned zeroStats ∧
        trace s = if falsy serverAddress0
                  then [TListen 0 "0.0.0.0"; TServerClose] else []) ∧
  ∀ s, reachable play serverAddress0 opts port s →
    started s = [] ∧ settles_of (trace s) = [] ∧ inflight s = ∅ ∧
    console s = [] ∧
    (∀ stats, phase_of s = Returned stats → stats = zeroStats) ∧
    (falsy serverAddress0 = false → trace s = []) ∧
    (falsy serverAddress0 = true →
     trace s = [TListen 0 "0.0.0.0"] ∨
     trace s = [TListen 0 "0.0.0.0"; TServerClose]).
Proof.
  intros Hn. split; [|split].
  - unfold run, run_init. rewrite Hn. simpl.
    by destruct (falsy serverAddress0).
  - exists (finish (run_init serverAddress0 opts port)).
    unfold run_init. rewrite Hn. simpl.
    by destruct (falsy serverAddress0).
  - intros s Hr.
    destruct (reachable_zero _ _ _ _ _ Hn Hr) as [-> | ->];
      unfold started, run_init; rewrite Hn; simpl;
      destruct (falsy serverAddress0); simpl; repeat split; try done;
      try (intros stats [= <-]; done); auto.
Qed.

Lemma zero_iterations_witness :
  run (quiet_play opts_0) (Some "cache.example:8126"%string) opts_0 4242
    [Resume] = Some (Returned zeroStats).
Proof.
  apply (zero_iterations (quiet_play opts_0)
           (Some "cache.example:8126"%string) opts_0 4242).
  reflexivity.
Defined.

(** C8, as stated, fails: with no server address, one iteration and a
    file that cannot be found, the session rejects, [run] is over, and
    the server it started is still listening: it was never closed. *)
Lemma null_server_failure_counterexample :
  reachable (missing_play opts_2_1) None opts_2_1 4242
    (state_after (missing_play opts_2_1) opts_2_1 [Resume; Settle 1%nat]) ∧
  (∀ a, step (missing_play opts_2_1) opts_2_1
          (state_after (missing_play opts_2_1) opts_2_1
             [Resume; Settle 1%nat]) a = None) ∧
  trace (state_after (missing_play opts_2_1) opts_2_1
           [Resume; Settle 1%nat]) =
    [TListen 0 "0.0.0.0"; TStart [1%nat] "0.0.0.0:4242"; TSettle 1] ∧
  nullServer (state_after (missing_play opts_2_1) opts_2_1
                [Resume; Settle 1%nat]) = Listening ∧
  nullServer (state_after (missing_play opts_2_1) opts_2_1
                [Resume; Settle 1%nat]) ≠ ServerClosed.
Proof.
  split; [|split; [|split; [|split]]].
  - exists [Resume; Settle 1%nat]. by vm_compute.
  - apply (terminal_failed _ _ _ (Error "Cannot find missing.bin")).
    + by vm_compute.
    + by vm_compute.
  - by vm_compute.
  - by vm_compute.
  - by vm_compute.
Qed.

(** C8 (amended).  When no server address is supplied, whatever the
    iteration count: the first thing [run] does is start the local
    server, on port 0 (a port chosen by the operating system) of all
    interfaces; every session is started after that, against the
    server's address; the server answers nothing to what it receives.
    When [run] returns, the last thing it has done is close the server,
    after every session was started and had settled.  As long as [run]
    has not returned, which includes every run that has failed, the
    server is listening and has not been closed. *)
Theorem null_server_lifecycle play serverAddress0 opts port s :
  falsy serverAddress0 = true →
  reachable play serverAddress0 opts port s →
  serverAddress s = null_address port ∧
  (∀ chunk, nullServer_on_data chunk = []) ∧
  ∃ body,
    Forall (body_event (null_address port)) body ∧
    trace s =
      TListen 0 "0.0.0.0" :: body ++
      (if is_returned (phase_of s) then [TServerClose] else []) ∧
    nullServer s =
      (if is_returned (phase_of s) then ServerClosed else Listening) ∧
    (is_returned (phase_of s) = true →
     settles_of body ≡ₚ seq 1 (numIterations opts) ∧
     mjoin (batches_of body) = seq 1 (numIterations opts)) ∧
    (is_returned (phase_of s) = false →
     ∀ acts s' err, phase_of s = Failed err →
       exec play opts s acts = Some s' → nullServer s' = Listening).
Proof.
  intros Hf Hr. pose proof (inv_reachable _ _ _ _ _ Hr) as I.
  pose proof (inv_address _ _ _ _ _ I) as Haddr.
  pose proof (inv_server _ _ _ _ _ I) as Hsrv.
  destruct (inv_trace _ _ _ _ _ I) as (body & Hbody & Ht).
  rewrite Hf in Hsrv, Ht. simpl in Ht.
  assert (serverAddress s = null_address port) as Ha.
  { rewrite Haddr. unfold run_init. simpl. by rewrite Hf. }
  split; [done|]. split; [done|].
  exists body. rewrite <- Ha. repeat split; try done.
  - destruct (phase_of s) as [| |stats] eqn:Hp; try done.
    destruct (reachable_returned _ _ _ _ _ _ Hr Hp)
      as (_ & _ & _ & Hperm & _).
    rewrite Ht in Hperm.
    rewrite <- Hperm. unfold settles_of. simpl.
    by rewrite omap_app, app_nil_r.
  - destruct (phase_of s) as [| |stats] eqn:Hp; try done.
    destruct (reachable_returned _ _ _ _ _ _ Hr Hp) as (_ & _ & Hst & _).
    rewrite <- Hst. unfold started. rewrite Ht. unfold batches_of. simpl.
    by rewrite omap_app, app_nil_r.
  - intros Hnr acts s' err Hp Hex.
    destruct (failed_exec _ _ _ _ _ _ Hp Hex) as (_ & _ & _ & ->).
    by rewrite Hsrv, Hnr.
Qed.

Lemma null_server_lifecycle_witness :
  serverAddress (state_after (quiet_play opts_3_2) opts_3_2 (fifo 3 2)) =
    null_address 4242 ∧
  (∀ chunk, nullServer_on_data chunk = []) ∧
  ∃ body,
    Forall (body_event (null_address 4242)) body ∧
    trace (state_after (quiet_play opts_3_2) opts_3_2 (fifo 3 2)) =
      TListen 0 "0.0.0.0" :: body ++
      (if is_returned
            (phase_of (state_after (quiet_play opts_3_2) opts_3_2 (fifo 3 2)))
       then [TServerClose] else []) ∧
    nullServer (state_after (quiet_play opts_3_2) opts_3_2 (fifo 3 2)) =
      (if is_returned
            (phase_of (state_after (quiet_play opts_3_2) opts_3_2 (fifo 3 2)))
       then ServerClosed else Listening) ∧
    (is_returned
       (phase_of (state_after (quiet_play opts_3_2) opts_3_2 (fifo 3 2)))
     = true →
     settles_of body ≡ₚ seq 1 (numIterations opts_3_2) ∧
     mjoin (batches_of body) = seq 1 (numIterations opts_3_2)) ∧
    (is_returned
       (phase_of (state_after (quiet_play opts_3_2) opts_3_2 (fifo 3 2)))
     = false →
     ∀ acts s' err,
       phase_of (state_after (quiet_play opts_3_2) opts_3_2 (fifo 3 2))
       = Failed err →
       exec (quiet_play opts_3_2) opts_3_2
         (state_after (quiet_play opts_3_2) opts_3_2 (fifo 3 2)) acts
       = Some s' →
       nullServer s' = Listening).
Proof.
  apply (null_server_lifecycle (quiet_play opts_3_2) None opts_3_2 4242
           (state_after (quiet_play opts_3_2) opts_3_2 (fifo 3 2))).
  - reflexivity.
  - exists (fifo 3 2). by vm_compute.
Defined.

(** ** The invariant of a session *)



Lemma session_inv_init debug start :
  session_inv debug AwaitHeader (session_init start).
Proof.
  split; try done. simpl. intros handle [due Hdue].
  apply lookup_insert_Some in Hdue as [[<- _]|[_ Hdue]]; [done|].
  by rewrite lookup_empty in Hdue.
Qed.

Lemma delete_only (m : gmap nat Z) (t : option nat) :
  (∀ handle, is_Some (m !! handle) → t = Some handle) →
  match t with Some handle => delete handle m | None => m end = ∅.
Proof.
  intros Honly. apply map_eq. intros i. rewrite lookup_empty.
  destruct t as [handle|].
  - destruct (decide (handle = i)) as [->|Hne].
    + apply lookup_delete_eq.
    + rewrite lookup_delete_ne by done.
      destruct (m !! i) eqn:Hi; [|done].
      specialize (Honly i (mk_is_Some _ _ Hi)). congruence.
  - destruct (m !! i) eqn:Hi; [|done].
    by specialize (Honly i (mk_is_Some _ _ Hi)).
Qed.

Lemma session_inv_step H debug fileSize d s e d' s' :
  session_inv debug d s →
  dec_step d e = Some d' →
  on_event H debug fileSize s e = Some s' →
  session_inv debug d' s'.
Proof.
  intros [Honly Hdata Hhash] Hd He.
  destruct e as [now|now|now h|chunk|now|data|handle now|remote];
    simpl in Hd, He.
  - injection Hd as <-. injection He as <-. by split.
  - injection Hd as <-. injection He as <-. by split.
  - injection He as <-. destruct d; [|done]. injection Hd as <-.
    assert (timers (on_header H debug now h s) = ∅) as Hempty
      by (simpl; by apply delete_only).
    split.
    + intros handle. rewrite Hempty, lookup_empty. by intros [? ?].
    + done.
    + intros -> _. simpl. by eexists.
  - destruct d; [done|]. injection Hd as <-.
    unfold on_data in He. destruct debug.
    + destruct (dataHash s) as [[msg|]|]; [|done..]. injection He as <-.
      split; simpl; [done|by auto|]. intros _ _. by eexists.
    + injection He as <-. by split.
  - destruct d; [done|]. injection Hd as <-.
    specialize (Hdata eq_refl).
    assert (∀ dh out handle,
              is_Some (timers
                (setTimer now
                   {| timer := timer s; received := received s;
                      receiveStartTime := receiveStartTime s;
                      receiveEndTime := Some now;
                      sendStartTime := sendStartTime s;
                      sendEndTime := sendEndTime s;
                      dataHash := dh; once_header := once_header s;
                      timers := timers s; next_handle := next_handle s;
                      end_calls := end_calls s; stdout := out;
                      resolved := resolved s |}) !! handle) →
              Some (next_handle s) = Some handle) as Hset.
    { intros dh out handle [due Hdue]. simpl in Hdue. rewrite Hdata in Hdue.
      apply lookup_insert_Some in Hdue as [[<- _]|[_ Hdue]]; [done|].
      by rewrite lookup_empty in Hdue. }
    unfold on_dataEnd in He. destruct debug.
    + destruct (dataHash s) as [[msg|]|]; [|done..]. injection He as <-.
      split; [apply Hset|done..].
    + injection He as <-. split; [apply Hset|done..].
  - injection Hd as <-. injection He as <-.
    destruct debug; by split.
  - injection Hd as <-.
    destruct (timers s !! handle) as [due|] eqn:Hdue; [|done].
    destruct (decide (due ≤ now)); [|done]. injection He as <-.
    split; simpl.
    + intros h' [due' Hh']. apply Honly.
      destruct (decide (handle = h')) as [->|Hne].
      * by rewrite lookup_delete_eq in Hh'.
      * rewrite lookup_delete_ne in Hh' by done. by eexists.
    + intros Hd. rewrite (Hdata Hd) in Hdue. by rewrite lookup_empty in Hdue.
    + done.
  - injection Hd as <-.
    destruct (resolved s); [done|].
    destruct (remote || bool_decide (end_calls s ≠ [])); [|done].
    injection He as <-. by split.
Qed.

Lemma session_inv_run H debug fileSize es : ∀ d s d' s',
  session_inv debug d s →
  dec_run d es = Some d' →
  on_events H debug fileSize s es = Some s' →
  session_inv debug d' s'.
Proof.
  induction es as [|e es IH]; intros d s d' s' I; simpl.
  - by intros [= <-] [= <-].
  - destruct (dec_step d e) as [d1|] eqn:Hd; [|done].
    destruct (on_event H debug fileSize s e) as [s1|] eqn:He; [|done].
    apply IH. by eapply session_inv_step.
Qed.

Lemma session_inv_reached H debug fileSize start es d s :
  reached H debug fileSize start es d s → session_inv debug d s.
Proof.
  intros [Hs Hd].
  eapply session_inv_run; [apply session_inv_init|done..].
Qed.

(** ** The idle timer *)



(** ** The result of a session *)

Ltac session_event He :=
  simpl in He;
  unfold on_data, on_dataEnd in He;
  repeat match type of He with
         | context [if ?b then _ else _] => destruct b
         | context [match ?x with _ => _ end] => destruct x eqn:?
         end;
  try discriminate He;
  try (injection He as <-).

(** What the variables of a session hold, in terms of the events. *)
Lemma fields_run H debug fileSize es : ∀ s0 s,
  on_events H debug fileSize s0 es = Some s →
  received s = received s0 + data_bytes es ∧
  receiveEndTime s =
    from_option Some (receiveEndTime s0) (last (dataEnd_times es)) ∧
  sendStartTime s =
    from_option Some (sendStartTime s0) (last (open_times es)) ∧
  sendEndTime s =
    from_option Some (sendEndTime s0) (last (close_times es)) ∧
  receiveStartTime s =
    (if once_header s0
     then from_option Some (receiveStartTime s0) (head (header_times es))
     else receiveStartTime s0) ∧
  once_header s = once_header s0 && bool_decide (header_times es = []).
Proof.
  induction es as [|e es IH]; intros s0 s; simpl.
  - intros [= <-]. rewrite andb_true_r. repeat split; try lia.
    by destruct (once_header s0).
  - destruct (on_event H debug fileSize s0 e) as [s1|] eqn:He; [|done].
    intros Hs. destruct (IH _ _ Hs) as (H1 & H2 & H3 & H4 & H5 & H6).
    rewrite H1, H2, H3, H4, H5, H6. clear IH Hs H1 H2 H3 H4 H5 H6.
    destruct e as [now|now|now h|chunk|now|data|handle now|remote];
      session_event He; simpl;
      unfold dataEnd_times, open_times, close_times, header_times; simpl;
      rewrite ?last_cons;
      repeat match goal with
             | |- context [last ?l] => destruct (last l)
             end;
      simpl; rewrite ?andb_false_r;
      repeat split; try done; try lia;
      by destruct (once_header s0).
Qed.

Lemma resolved_step H debug fileSize s e s' r :
  resolved s = Some r →
  on_event H debug fileSize s e = Some s' →
  resolved s' = Some r ∧ ∀ remote, e ≠ OnClose remote.
Proof.
  intros Hr He.
  destruct e as [now|now|now h|chunk|now|data|handle now|remote];
    simpl in He; try rewrite Hr in He;
    session_event He; simpl; done.
Qed.

Lemma resolved_run H debug fileSize es : ∀ s s' r,
  resolved s = Some r →
  on_events H debug fileSize s es = Some s' →
  resolved s' = Some r ∧ ∀ remote, OnClose remote ∉ es.
Proof.
  induction es as [|e es IH]; intros s s' r Hr; simpl.
  - intros [= <-]. split; [done|]. intros remote Hin.
    by apply elem_of_nil in Hin.
  - destruct (on_event H debug fileSize s e) as [s1|] eqn:He; [|done].
    destruct (resolved_step _ _ _ _ _ _ _ Hr He) as [Hr1 Hne].
    intros Hs. destruct (IH _ _ _ Hr1 Hs) as [Hr' Hnot].
    split; [done|]. intros remote [Heq|Hin]%elem_of_cons.
    + by apply (Hne remote).
    + by eapply Hnot.
Qed.

Lemma unresolved_run H debug fileSize es : ∀ s s',
  resolved s = None →
  (∀ remote, OnClose remote ∉ es) →
  on_events H debug fileSize s es = Some s' →
  resolved s' = None.
Proof.
  induction es as [|e es IH]; intros s s' Hn Hno; simpl.
  - by intros [= <-].
  - destruct (on_event H debug fileSize s e) as [s1|] eqn:He; [|done].
    apply IH.
    + destruct e as [now|now|now h|chunk|now|data|handle now|remote];
        session_event He; simpl; try done.
      all: exfalso; eapply Hno; apply elem_of_cons; by left.
    + intros remote Hin. eapply Hno. apply elem_of_cons. by right.
Qed.

(** C5.  Until it is closed a session has not resolved.  It can always
    be closed by the peer, and can be closed locally once the timeout has
    ended the connection.  Either close resolves one result:
    [bytesSent] is the size of the file, [bytesReceived] the sum of the
    lengths of the chunks received, [sendTime] the time of the file's
    ['close'] minus that of its ['open'], and [receiveTime] the time of
    the last ['dataEnd'] minus that of the first ['header'], a number
    whenever both events of the pair occurred.  The result does not
    change afterwards and there is no second close. *)
Theorem close_resolves_result H debug fileSize start es s :
  on_events H debug fileSize (session_init start) es = Some s →
  (∀ remote, OnClose remote ∉ es) →
  resolved s = None ∧
  is_Some (on_event H debug fileSize s (OnClose true)) ∧
  (end_calls s ≠ [] →
   is_Some (on_event H debug fileSize s (OnClose false))) ∧
  ∀ remote s',
    on_event H debug fileSize s (OnClose remote) = Some s' →
    resolved s' = Some (result_of fileSize es) ∧
    bytesSent (result_of fileSize es) = Num fileSize ∧
    bytesReceived (result_of fileSize es) = Num (data_bytes es) ∧
    (∀ opened closed,
       last (open_times es) = Some opened →
       last (close_times es) = Some closed →
       sendTime (result_of fileSize es) = Num (closed - opened)) ∧
    (∀ first_header last_dataEnd,
       head (header_times es) = Some first_header →
       last (dataEnd_times es) = Some last_dataEnd →
       receiveTime (result_of fileSize es) =
         Num (last_dataEnd - first_header)) ∧
    ∀ es' s'',
      on_events H debug fileSize s' es' = Some s'' →
      resolved s'' = Some (result_of fileSize es) ∧
      ∀ remote', OnClose remote' ∉ es'.
Proof.
  intros Hs Hno.
  assert (resolved s = None) as Hnone
    by (by eapply unresolved_run; [|exact Hno|exact Hs]).
  destruct (fields_run _ _ _ _ _ _ Hs) as (H1 & H2 & H3 & H4 & H5 & _).
  simpl in H1, H2, H3, H4, H5.
  split; [done|]. split; [|split].
  - simpl. rewrite Hnone. by eexists.
  - intros Hne. simpl. rewrite Hnone, bool_decide_true by done.
    by eexists.
  - intros remote s' Hclose.
    assert (resolved s' = Some (result_of fileSize es)) as Hres.
    { simpl in Hclose. rewrite Hnone in Hclose.
      destruct (remote || bool_decide (end_calls s ≠ [])); [|done].
      injection Hclose as <-. simpl. unfold result_of.
      rewrite H1, H2, H3, H4, H5. repeat f_equal; try lia;
        by repeat match goal with
                  | |- context [last ?l] => destruct (last l)
                  | |- context [head ?l] => destruct (head l)
                  end. }
    split; [done|]. split; [done|]. split; [done|].
    split; [|split].
    + intros opened closed Ho Hc. unfold result_of. simpl.
      by rewrite Ho, Hc.
    + intros t0 t1 Hh Hd. unfold result_of. simpl. by rewrite Hh, Hd.
    + intros es' s'' Hes'. by eapply resolved_run.
Qed.

Lemma close_resolves_result_witness :
  resolved (session_after true (hello_session ++ [OnClose false])) =
  Some (result_of 100 hello_session).
Proof.
  apply (close_resolves_result sample_helpers true 100 0 hello_session
           (session_after true hello_session)) with (remote := false).
  - by vm_compute.
  - intros remote Hin. vm_compute in Hin.
    repeat (apply elem_of_cons in Hin as [Hin|Hin]; [discriminate Hin|]).
    by apply elem_of_nil in Hin.
  - by vm_compute.
Defined.

(** ** Sessions that receive nothing *)

Lemma nothing_received_init start : nothing_received (session_init start).
Proof. by repeat split. Qed.

Lemma nothing_run H debug fileSize es : ∀ s s' d,
  nothing_received s →
  dec_run AwaitHeader es = Some d →
  header_times es = [] →
  on_events H debug fileSize s es = Some s' →
  nothing_received s'.
Proof.
  induction es as [|e es IH]; intros s s' d Hn; simpl.
  - by intros _ _ [= <-].
  - destruct (dec_step AwaitHeader e) as [d1|] eqn:Hd; [|done].
    destruct (on_event H debug fileSize s e) as [s1|] eqn:He; [|done].
    intros Hrun Hh Hs.
    destruct Hn as (Hn1 & Hn2 & Hn3 & Hn4).
    destruct e as [now|now|now h|chunk|now|data|handle now|remote];
      try done; simpl in Hd; injection Hd as <-;
      (eapply IH; [|exact Hrun|exact Hh|exact Hs]);
      session_event He; unfold nothing_received; simpl;
      (split; [done|split; [done|split; [done|]]]); try exact Hn4.
    all: intros r0 [= <-]; simpl; by rewrite ?Hn1, ?Hn2, ?Hn3.
Qed.

(** C9.  In a session in which the decoder emits no ['header'] event,
    neither receive timestamp is ever assigned, so the result the session
    resolves has [bytesReceived] 0 and a [receiveTime] of
    [undefined - undefined], which is [NaN] and not 0; any fold over
    results that include it has [receiveTime] [NaN], and so has the value
    [run] returns when one of its sessions resolved it. *)
Theorem no_header_receive_time H debug fileSize start es d s r :
  reached H debug fileSize start es d s →
  header_times es = [] →
  resolved s = Some r →
  (receiveStartTime s = None ∧ receiveEndTime s = None) ∧
  bytesReceived r = Num 0 ∧
  receiveTime r = tsub None None ∧
  receiveTime r = NaN ∧
  receiveTime r ≠ Num 0 ∧
  (∀ results, r ∈ results → receiveTime (reduce results) = NaN) ∧
  (∀ play serverAddress0 opts port st stats i,
     reachable play serverAddress0 opts port st →
     phase_of st = Returned stats →
     (1 ≤ i ≤ numIterations opts)%nat →
     play i = Some (Fulfilled r) →
     receiveTime stats = NaN).
Proof.
  intros [Hs Hd] Hh Hr.
  destruct (nothing_run _ _ _ _ _ _ _ (nothing_received_init start) Hd Hh Hs)
    as (Hn1 & Hn2 & Hn3 & Hn4).
  destruct (Hn4 r Hr) as [Hb Ht].
  split; [done|]. split; [done|]. split; [done|]. split; [done|].
  split; [by rewrite Ht|]. split.
  - intros results Hin. rewrite reduce_is_sum. simpl.
    by eapply sum_field_NaN.
  - intros play serverAddress0 opts port st stats i Hreach Hp Hi Hplay.
    destruct (reachable_returned _ _ _ _ _ _ Hreach Hp)
      as (_ & _ & _ & _ & _ & rs & Hrs & _ & ->).
    simpl. apply (sum_field_NaN _ _ r); [|done].
    assert (i ∈ seq 1 (numIterations opts)) as Hin
      by (apply elem_of_seq; lia).
    apply list_elem_of_lookup in Hin as [j Hj].
    destruct (Forall2_lookup_l _ _ _ _ _ Hrs Hj) as (r' & Hr' & Hpr).
    rewrite Hplay in Hpr. injection Hpr as <-.
    apply list_elem_of_lookup. by exists j.
Qed.

Lemma no_header_receive_time_witness :
  resolved (session_after false (events quiet_world)) =
    Some {| bytesSent := Num 100; bytesReceived := Num 0;
            sendTime := Num 2; receiveTime := NaN |} ∧
  receiveTime {| bytesSent := Num 100; bytesReceived := Num 0;
                 sendTime := Num 2; receiveTime := NaN |} = NaN.
Proof.
  split; [by vm_compute|].
  apply (no_header_receive_time sample_helpers false 100 0
           (events quiet_world) AwaitHeader
           (session_after false (events quiet_world))).
  - split; by vm_compute.
  - by vm_compute.
  - by vm_compute.
Defined.

(** ** A session whose last decoded event is a header *)




(** ** Debug output of an inbound frame *)

(** The digest agrees with the published test vectors. *)
Example sha256_empty :
  hex (sha256 []) =
  "e3b0c44298fc1c149afbf4c8996fb92427ae41e4649b934ca495991b7852b855"%string.
Proof. by vm_compute. Qed.

Example sha256_abc :
  hex (sha256 (list_byte_of_string "abc")) =
  "ba7816bf8f01cfea414140de5dae2223b00361a396177a9cb410ff61f20015ad"%string.
Proof. by vm_compute. Qed.

Example sha256_two_blocks :
  hex (sha256 (list_byte_of_string
    "abcdbcdecdefdefgefghfghighijhijkijkljklmklmnlmnomnopnopq")) =
  "248d6a61d20638b8e5c026930c3e6039a33ce45964ff2167f6ecedd419db06c1"%string.
Proof. by vm_compute. Qed.

Lemma append_nil_r s : (s +:+ "")%string = s.
Proof.
  induction s as [|c s IH]; [done|].
  unfold append; fold append. by rewrite IH.
Qed.

Lemma append_assoc s1 s2 s3 :
  (s1 +:+ (s2 +:+ s3))%string = ((s1 +:+ s2) +:+ s3)%string.
Proof.
  induction s1 as [|c s1 IH]; [done|].
  unfold append; fold append. by rewrite IH.
Qed.

Lemma hex_digit_lower n : lower_hex (hex_digit n) = true.
Proof.
  destruct n as [|p]; [done|].
  do 4 (destruct p as [p|p|]; try done).
Qed.

Lemma hex_lower bs :
  Forall (λ c, lower_hex c = true) (list_ascii_of_string (hex bs)).
Proof.
  induction bs as [|b bs IH]; simpl; [constructor|].
  repeat constructor; [apply hex_digit_lower..|done].
Qed.

(** In debug mode the chunks of a blob are hashed as they arrive and the
    digest of their concatenation is printed at the end of the blob. *)
Lemma debug_blob H fileSize finish chunks : ∀ s msg,
  dataHash s = Some (Hashing msg) →
  ∃ s', on_events H true fileSize s
          ((OnData <$> chunks) ++ [OnDataEnd finish]) = Some s' ∧
        stdout s' =
          (stdout s +:+ blob_text (sha256 (msg ++ mjoin chunks))
           +:+ newline)%string ∧
        received s' = received s + Z.of_nat (length (mjoin chunks)).
Proof.
  induction chunks as [|chunk chunks IH]; intros s msg Hh.
  - simpl. unfold on_dataEnd. rewrite Hh. eexists. split; [reflexivity|].
    simpl. rewrite app_nil_r. split; [done|lia].
  - cbn [fmap list_fmap app on_events on_event]. unfold on_data. rewrite Hh.
    destruct (IH {| timer := timer s;
                    received := received s + Z.of_nat (length chunk);
                    receiveStartTime := receiveStartTime s;
                    receiveEndTime := receiveEndTime s;
                    sendStartTime := sendStartTime s;
                    sendEndTime := sendEndTime s;
                    dataHash := Some (Hashing (msg ++ chunk));
                    once_header := once_header s;
                    timers := timers s;
                    next_handle := next_handle s;
                    end_calls := end_calls s;
                    stdout := stdout s;
                    resolved := resolved s |} (msg ++ chunk) eq_refl)
      as (s' & Hs' & Hout & Hrec).
    exists s'. split; [exact Hs'|]. rewrite Hout, Hrec.
    cbn [stdout received].
    rewrite mjoin_cons, <- app_assoc, length_app. split; [done|lia].
Qed.

(** C7, as stated, fails: for the frame that carries ["helloworld"] the
    output is one line, the header's text followed by the digest between
    [<BLOB] and [>]; it is not a header line followed by a line that is
    the digest. *)
Lemma debug_two_lines_counterexample :
  stdout (session_after true hello_events) =
    ("<<< +c 10 01010101010101010101010101010101 "
     +:+ "abababababababababababababababab"
     +:+ " <BLOB "
     +:+ "936a185caaa266bb9cbe981e9e05cb78cd732b0b3280eb944412bb6f8f8f07af"
     +:+ ">" +:+ newline)%string ∧
  length (lines (stdout (session_after true hello_events))) = 1%nat ∧
  ¬ ∃ header_line,
      lines (stdout (session_after true hello_events)) =
      [header_line; hex (sha256 (list_byte_of_string "helloworld"))].
Proof.
  split; [by vm_compute|]. split; [by vm_compute|].
  intros [header_line Hl]. apply (f_equal length) in Hl.
  vm_compute in Hl. discriminate Hl.
Qed.

(** C7 (amended).  In debug mode, for a header whose size is absent or
    not zero: when the header arrives, before any data, the player
    prints [<<<], the command, the size if there is one, the session id
    as [GUIDBufferToString] renders it, and the checksum in lowercase
    hexadecimal, separated by spaces; the line ends there if the header
    has no size.  If it has one, the line stays open, every chunk
    received is fed to the hash, and at ['dataEnd'] the player appends
    [ <BLOB d>], where [d] is the SHA-256 digest of the blob in lowercase
    hexadecimal, and ends the line. *)
Theorem debug_frame_output H fileSize s now h chunks finish :
  size h ≠ Some 0%N →
  header_text H h =
    ("<<< " +:+ cmd h +:+ " " +:+
     match size h with Some n => pretty n +:+ " " | None => "" end +:+
     GUIDBufferToString H (guid h) +:+ " " +:+ hex (hash h))%string ∧
  Forall (λ c, lower_hex c = true) (list_ascii_of_string (hex (hash h))) ∧
  stdout (on_header H true now h s) =
    (stdout s +:+ header_text H h +:+
     match size h with Some _ => "" | None => newline end)%string ∧
  (size h = None →
   on_events H true fileSize s (frame_events now h chunks finish) =
     Some (on_header H true now h s)) ∧
  (is_Some (size h) →
   ∃ s', on_events H true fileSize s (frame_events now h chunks finish)
         = Some s' ∧
         stdout s' =
           (stdout s +:+ header_text H h +:+ " <BLOB " +:+
            hex (sha256 (mjoin chunks)) +:+ ">" +:+ newline)%string ∧
         Forall (λ c, lower_hex c = true)
           (list_ascii_of_string (hex (sha256 (mjoin chunks)))) ∧
         received s' = received s + Z.of_nat (length (mjoin chunks))).
Proof.
  intros Hsz.
  assert (size_truthy h = bool_decide (is_Some (size h))) as Htruthy.
  { unfold size_truthy. destruct (size h) as [n|]; [|done].
    assert (n ≠ 0%N) as Hn by congruence.
    by destruct n. }
  split; [|split; [apply hex_lower|split; [|split]]].
  - unfold header_text. rewrite Htruthy.
    destruct (size h) as [n|]; simpl; [|done].
    by rewrite <- !append_assoc.
  - simpl. rewrite Htruthy. by destruct (size h).
  - intros Hnone. unfold frame_events. by rewrite Hnone.
  - intros [n Hn]. unfold frame_events. rewrite Hn.
    cbn [on_events on_event].
    destruct (debug_blob H fileSize finish chunks
                (on_header H true now h s) [] eq_refl)
      as (s' & Hs' & Hout & Hrec).
    exists s'. split; [exact Hs'|].
    split; [|split; [apply hex_lower|exact Hrec]].
    rewrite Hout. simpl. rewrite Htruthy, Hn. simpl. unfold blob_text.
    rewrite !append_nil_r. by rewrite <- !append_assoc.
Qed.

Lemma debug_frame_output_witness :
  ∃ s', on_events sample_helpers true 100 (session_init 0)
          (frame_events 10 hello_header
             [list_byte_of_string "hello"; list_byte_of_string "world"] 20)
        = Some s' ∧
        stdout s' =
          (stdout (session_init 0) +:+ header_text sample_helpers hello_header
           +:+ " <BLOB " +:+
           hex (sha256 (mjoin [list_byte_of_string "hello";
                               list_byte_of_string "world"]))
           +:+ ">" +:+ newline)%string ∧
        Forall (λ c, lower_hex c = true)
          (list_ascii_of_string
             (hex (sha256 (mjoin [list_byte_of_string "hello";
                                  list_byte_of_string "world"])))) ∧
        received s' =
          received (session_init 0) +
          Z.of_nat (length (mjoin [list_byte_of_string "hello";
                                   list_byte_of_string "world"])).
Proof.
  apply (debug_frame_output sample_helpers 100 (session_init 0) 10
           hello_header
           [list_byte_of_string "hello"; list_byte_of_string "world"] 20).
  - by vm_compute.
  - eexists. reflexivity.
Defined.

(** * Further properties of [run] *)

(** ** The fold and the array it rewrites *)

Lemma reduce_mut_length acc l : length (reduce_mut acc l).2 = length l.
Proof.
  revert acc. induction l as [|cur rest IH]; intros acc; simpl; [done|].
  specialize (IH (reducer acc cur)).
  destruct (reduce_mut (reducer acc cur) rest) as [final rest'].
  simpl in *. by rewrite IH.
Qed.

Lemma reduce_mut_last acc l :
  (reduce_mut acc l).1 = default acc (last (reduce_mut acc l).2).
Proof.
  revert acc. induction l as [|cur rest IH]; intros acc; simpl; [done|].
  specialize (IH (reducer acc cur)).
  destruct (reduce_mut (reducer acc cur) rest) as [final rest'].
  simpl in *. rewrite IH, last_cons. by destruct (last rest').
Qed.

Lemma sum_field_app f l1 l2 :
  sum_field f (l1 ++ l2) = nadd (sum_field f l1) (sum_field f l2).
Proof.
  induction l1 as [|x l1 IH]; simpl.
  - by destruct (sum_field f l2).
  - by rewrite IH, nadd_assoc.
Qed.

(** X1.  [results.reduce] rewrites the array it folds: afterwards the
    array has the same length, element [i] holds the sum of the original
    elements [0..i], and the value returned is the last element of the
    array (the initial object when the array is empty). *)
Theorem reduce_rewrites_results results :
  length (reduce_mut zeroStats results).2 = length results ∧
  (∀ i r, (reduce_mut zeroStats results).2 !! i = Some r →
          r = stats_sum (take (S i) results)) ∧
  (reduce_mut zeroStats results).1 =
    default zeroStats (last (reduce_mut zeroStats results).2) ∧
  reduce results = default zeroStats (last (reduce_mut zeroStats results).2).
Proof.
  split; [apply reduce_mut_length|]. split; [|split].
  - intros i r Hi. apply reduce_mut_snd in Hi. subst r.
    rewrite <- reduce_is_sum. unfold reduce. by rewrite reduce_mut_fst.
  - apply reduce_mut_last.
  - unfold reduce. apply reduce_mut_last.
Qed.

(** X2.  The fold of nothing is the zero object, the fold of one result
    is that result, and the fold of two arrays put end to end is the
    callback applied to the folds of the two. *)
Theorem reduce_composes l1 l2 r :
  reduce [] = zeroStats ∧
  reduce [r] = r ∧
  reduce (l1 ++ l2) = reducer (reduce l1) (reduce l2).
Proof.
  split; [done|]. split.
  - rewrite reduce_is_sum. unfold stats_sum. simpl.
    rewrite !nadd_zero_r. by destruct r.
  - rewrite !reduce_is_sum. unfold stats_sum, reducer. simpl.
    rewrite !sum_field_app. f_equal; apply nadd_comm.
Qed.

(** ** The results array and the console *)

(** X3.  Until [run] returns, its [results] array holds what the
    sessions that resolved so far resolved, in the order they settled;
    a session that resolves after [run] has failed is still pushed, and
    leaves [run] failed. *)
Theorem results_in_settle_order play serverAddress0 opts port s :
  reachable play serverAddress0 opts port s →
  is_returned (phase_of s) = false →
  results s = omap (fulfilled_of play) (settles_of (trace s)) ∧
  ∀ i stats err,
    phase_of s = Failed err → i ∈ inflight s →
    play i = Some (Fulfilled stats) →
    ∃ s', step play opts s (Settle i) = Some s' ∧
          results s' = results s ++ [stats] ∧
          phase_of s' = Failed err.
Proof.
  intros Hr Hnr. pose proof (inv_reachable _ _ _ _ _ Hr) as I.
  split; [by apply (inv_results _ _ _ _ _ I)|].
  intros i stats err Hp Hi Hplay. exists (fulfil i stats s). simpl.
  rewrite decide_True by done. by rewrite Hplay.
Qed.

Lemma results_in_settle_order_witness :
  results (state_after second_fails_play opts_3_2
             [Resume; Settle 2%nat; Settle 1%nat]) =
  omap (fulfilled_of second_fails_play)
    (settles_of (trace (state_after second_fails_play opts_3_2
                          [Resume; Settle 2%nat; Settle 1%nat]))).
Proof.
  apply (results_in_settle_order second_fails_play None opts_3_2 4242
           (state_after second_fails_play opts_3_2
              [Resume; Settle 2%nat; Settle 1%nat])).
  - exists [Resume; Settle 2%nat; Settle 1%nat]. by vm_compute.
  - by vm_compute.
Defined.

Lemma started_step play opts s a s' :
  step play opts s a = Some s' →
  started s' = started s ∧ console s' = console s ∨
  ∃ x l, jobs s = x :: l ∧
         started s' = started s ++ take (numConcurrent opts) (jobs s) ∧
         console s' =
           console s ++
           mjoin (playing_line opts <$> take (numConcurrent opts) (jobs s)).
Proof.
  destruct a as [|i]; simpl.
  - destruct (phase_of s); try done.
    destruct (decide (awaiting s = ∅)); [|done].
    destruct (jobs s) as [|x l] eqn:Hj; intros [= <-].
    + left. unfold finish, started.
      destruct (reduce_mut zeroStats (results s)). simpl.
      destruct (nullServer s); rewrite ?app_nil_r; try done;
        by rewrite batches_of_snoc, app_nil_r.
    + right. exists x, l. split; [done|]. unfold started. simpl.
      by rewrite started_snoc_batch, Hj.
  - destruct (decide (i ∈ inflight s)); [|done].
    destruct (play i) as [[stats|err]|]; [| |done];
      intros [= <-]; left;
      unfold started; simpl; by rewrite batches_of_snoc, app_nil_r.
Qed.

Lemma console_exec play opts acts : ∀ s s',
  console s = mjoin (playing_line opts <$> started s) →
  exec play opts s acts = Some s' →
  console s' = mjoin (playing_line opts <$> started s').
Proof.
  induction acts as [|a acts IH]; intros s s' Hc; simpl.
  - by intros [= <-].
  - destruct (step play opts s a) as [s1|] eqn:Hs; [|done].
    apply IH.
    destruct (started_step _ _ _ _ _ Hs)
      as [[-> ->]|(x & l & _ & -> & ->)]; [done|].
    by rewrite fmap_app, join_app, Hc.
Qed.

Lemma playing_line_quiet opts l :
  verbose opts && bool_decide (1 < numIterations opts)%nat = false →
  mjoin (playing_line opts <$> l) = [].
Proof.
  intros Hq. induction l as [|x l IH]; [done|].
  rewrite fmap_cons, mjoin_cons, IH. unfold playing_line. by rewrite Hq.
Qed.

Lemma playing_line_loud opts l :
  verbose opts && bool_decide (1 < numIterations opts)%nat = true →
  mjoin (playing_line opts <$> l) =
  (λ jobNum, ("Playing iteration " +:+ pretty jobNum +:+ "/"
              +:+ pretty (numIterations opts))%string) <$> l.
Proof.
  intros Hq. induction l as [|x l IH]; [done|].
  rewrite !fmap_cons, mjoin_cons, IH. unfold playing_line. by rewrite Hq.
Qed.

(** X4.  The progress lines: [run] prints one line per session it has
    started, in job order, and only when [verbose] is set and there is
    more than one iteration; otherwise it prints nothing.  When it
    returns in the first case it has printed the lines of jobs 1 to n. *)
Theorem console_lines play serverAddress0 opts port s :
  reachable play serverAddress0 opts port s →
  console s = mjoin (playing_line opts <$> started s) ∧
  (verbose opts = false ∨ (numIterations opts ≤ 1)%nat → console s = []) ∧
  (verbose opts = true → (1 < numIterations opts)%nat →
   console s =
     (λ jobNum, ("Playing iteration " +:+ pretty jobNum +:+ "/"
                 +:+ pretty (numIterations opts))%string) <$> started s ∧
   (is_returned (phase_of s) = true →
    console s =
      (λ jobNum, ("Playing iteration " +:+ pretty jobNum +:+ "/"
                  +:+ pretty (numIterations opts))%string)
      <$> seq 1 (numIterations opts))).
Proof.
  intros Hr.
  assert (console s = mjoin (playing_line opts <$> started s)) as Hc.
  { destruct Hr as [acts Hex]. eapply console_exec; [|exact Hex].
    unfold started, run_init. simpl. by destruct (falsy serverAddress0). }
  split; [done|]. split.
  - intros Hq. rewrite Hc. apply playing_line_quiet.
    destruct Hq as [->|Hn]; [done|].
    rewrite bool_decide_false by lia. apply andb_false_r.
  - intros Hv Hn.
    assert (verbose opts && bool_decide (1 < numIterations opts)%nat = true)
      as Hloud by (by rewrite Hv, bool_decide_true).
    split; [by rewrite Hc, playing_line_loud|].
    intros Hret. rewrite Hc, playing_line_loud by done.
    destruct (phase_of s) as [| |stats] eqn:Hp; try done.
    by destruct (reachable_returned _ _ _ _ _ _ Hr Hp) as (_ & _ & -> & _).
Qed.

Lemma console_lines_witness :
  console (state_after (quiet_play opts_3_2) opts_3_2 (fifo 3 2)) =
  (λ jobNum, ("Playing iteration " +:+ pretty jobNum +:+ "/"
              +:+ pretty (numIterations opts_3_2))%string)
  <$> seq 1 (numIterations opts_3_2).
Proof.
  apply (console_lines (quiet_play opts_3_2) None opts_3_2 4242
           (state_after (quiet_play opts_3_2) opts_3_2 (fifo 3 2))).
  - exists (fifo 3 2). by vm_compute.
  - reflexivity.
  - simpl. lia.
  - by vm_compute.
Defined.

(** ** Edge cases of the batch loop *)

Lemma spin_step play opts s :
  numConcurrent opts = 0%nat →
  jobs s ≠ [] →
  phase_of s = Running → awaiting s = ∅ → inflight s = ∅ →
  (∀ i, step play opts s (Settle i) = None) ∧
  step play opts s Resume = Some (start_batch opts s) ∧
  jobs (start_batch opts s) = jobs s ∧
  awaiting (start_batch opts s) = ∅ ∧
  inflight (start_batch opts s) = ∅ ∧
  started (start_batch opts s) = started s ∧
  trace (start_batch opts s) = trace s ++ [TStart [] (serverAddress s)].
Proof.
  intros Hk Hj Hp Ha Hin. split; [|split].
  - intros i. simpl. rewrite decide_False; [done|]. rewrite Hin. set_solver.
  - simpl. rewrite Hp, decide_True by done. by destruct (jobs s).
  - unfold started. simpl. rewrite Hk, Hin, take_0, drop_0.
    rewrite started_snoc_batch, app_nil_r.
    split; [done|]. split; [done|]. split; [|done].
    change (list_to_set []) with (∅ : gset nat). apply (left_id_L ∅ (∪)).
Qed.

Lemma spin_exec play opts acts : ∀ s s',
  numConcurrent opts = 0%nat →
  jobs s ≠ [] →
  phase_of s = Running → awaiting s = ∅ → inflight s = ∅ →
  exec play opts s acts = Some s' →
  jobs s' = jobs s ∧ phase_of s' = Running ∧ awaiting s' = ∅ ∧
  inflight s' = ∅ ∧ started s' = started s.
Proof.
  induction acts as [|a acts IH]; intros s s' Hk Hj Hp Ha Hin.
  - by intros [= <-].
  - destruct (spin_step play opts s Hk Hj Hp Ha Hin)
      as (Hs & Hr & H1 & H2 & H3 & H4 & _).
    cbn [exec]. destruct a as [|i]; [|by rewrite Hs].
    rewrite Hr. intros Hex.
    destruct (IH (start_batch opts s) s') as (J1 & J2 & J3 & J4 & J5);
      try done; [by rewrite H1|].
    repeat split; congruence.
Qed.

(** X5.  With a concurrency limit of 0 and at least one iteration the
    batch loop never ends: every batch [run] splices off is empty, so it
    starts no session, keeps all its jobs, never returns and never
    fails, and can always take another turn of the loop. *)
Theorem zero_concurrency_spins play serverAddress0 opts port s :
  numConcurrent opts = 0%nat →
  (1 ≤ numIterations opts)%nat →
  reachable play serverAddress0 opts port s →
  phase_of s = Running ∧
  jobs s = seq 1 (numIterations opts) ∧
  started s = [] ∧
  inflight s = ∅ ∧
  (∀ i, step play opts s (Settle i) = None) ∧
  ∃ s', step play opts s Resume = Some s' ∧
        jobs s' = jobs s ∧
        trace s' = trace s ++ [TStart [] (serverAddress s)].
Proof.
  intros Hk Hn [acts Hex].
  pose proof (jobs_init serverAddress0 opts port) as Hjobs.
  assert (jobs (run_init serverAddress0 opts port) ≠ []) as Hne.
  { rewrite Hjobs. destruct (numIterations opts); [lia|done]. }
  destruct (spin_exec play opts acts _ _ Hk Hne eq_refl eq_refl eq_refl Hex)
    as (Hj & Hp & Ha & Hin & Hst).
  assert (jobs s ≠ []) as Hne' by (by rewrite Hj).
  destruct (spin_step play opts s Hk Hne' Hp Ha Hin)
    as (Hs & Hr & H1 & _ & _ & _ & H5).
  split; [done|]. split; [by rewrite Hj|]. split.
  { rewrite Hst. unfold started, run_init. simpl.
    by destruct (falsy serverAddress0). }
  split; [done|]. split; [done|].
  by exists (start_batch opts s).
Qed.

Lemma zero_concurrency_spins_witness :
  phase_of (state_after (quiet_play opts_2_0) opts_2_0
              [Resume; Resume; Resume]) = Running.
Proof.
  apply (zero_concurrency_spins (quiet_play opts_2_0) None opts_2_0 4242
           (state_after (quiet_play opts_2_0) opts_2_0
              [Resume; Resume; Resume])).
  - reflexivity.
  - simpl. lia.
  - exists [Resume; Resume; Resume]. by vm_compute.
Defined.

(** X6.  When a server address is supplied, [run] creates no server: it
    neither listens nor closes anything, and everything it does is start
    sessions against the address it was given and see them settle. *)
Theorem given_address_no_server play address opts port s :
  address ≠ ""%string →
  reachable play (Some address) opts port s →
  nullServer s = NoServer ∧
  serverAddress s = address ∧
  Forall (body_event address) (trace s) ∧
  (∀ p h, TListen p h ∉ trace s) ∧
  (TServerClose ∉ trace s).
Proof.
  intros Hne Hr. pose proof (inv_reachable _ _ _ _ _ Hr) as I.
  assert (falsy (Some address) = false) as Hf
    by (simpl; by apply bool_decide_eq_false).
  pose proof (inv_server _ _ _ _ _ I) as Hsrv.
  pose proof (inv_address _ _ _ _ _ I) as Haddr.
  destruct (inv_trace _ _ _ _ _ I) as (body & Hbody & Ht).
  rewrite Hf in Hsrv, Ht. unfold run_init in Haddr. rewrite Hf in Haddr.
  simpl in Haddr, Ht. rewrite app_nil_r in Ht. rewrite Ht.
  rewrite Haddr in Hbody.
  split; [done|]. split; [done|]. split; [done|].
  rewrite Forall_forall in Hbody. split.
  - intros p h Hin. by apply Hbody in Hin.
  - intros Hin. by apply Hbody in Hin.
Qed.

Lemma given_address_no_server_witness :
  nullServer
    (default (run_init (Some "cache.example:8126"%string) opts_3_2 0)
       (exec (quiet_play opts_3_2) opts_3_2
          (run_init (Some "cache.example:8126"%string) opts_3_2 0)
          (fifo 3 2))) = NoServer.
Proof.
  apply (given_address_no_server (quiet_play opts_3_2)
           "cache.example:8126" opts_3_2 0).
  - done.
  - exists (fifo 3 2). by vm_compute.
Defined.

(** A session settles only if its promise does. *)
Lemma settles_settled play opts acts : ∀ s s',
  (∀ j, j ∈ settles_of (trace s) → is_Some (play j)) →
  exec play opts s acts = Some s' →
  ∀ j, j ∈ settles_of (trace s') → is_Some (play j).
Proof.
  induction acts as [|a acts IH]; intros s s' Hs; simpl.
  - by intros [= <-].
  - destruct (step play opts s a) as [s1|] eqn:Hstep; [|done].
    apply IH. intros j. revert Hstep. destruct a as [|i]; simpl.
    + destruct (phase_of s); try done.
      destruct (decide (awaiting s = ∅)); [|done].
      destruct (jobs s); intros [= <-].
      * unfold finish. destruct (reduce_mut zeroStats (results s)). simpl.
        destruct (nullServer s); rewrite ?app_nil_r; try apply Hs;
          rewrite settles_of_snoc, app_nil_r; apply Hs.
      * simpl. rewrite settles_of_snoc, app_nil_r. apply Hs.
    + destruct (decide (i ∈ inflight s)); [|done].
      destruct (play i) as [[stats|err]|] eqn:Hplay; [| |done];
        intros [= <-]; simpl; rewrite settles_of_snoc;
        (intros [Hj|Hj%list_elem_of_singleton]%elem_of_app;
         [by apply Hs|subst j; rewrite Hplay; by eexists]).
Qed.

(** X7.  A session that never settles keeps [run] from returning; once
    it has been started it stays in flight, and [run] cannot go on to
    the next batch or to the code after the loop. *)
Theorem hanging_session_blocks_run play serverAddress0 opts port i s :
  (1 ≤ i ≤ numIterations opts)%nat →
  play i = None →
  reachable play serverAddress0 opts port s →
  is_returned (phase_of s) = false ∧
  (i ∈ started s →
   i ∈ inflight s ∧ step play opts s Resume = None ∧
   step play opts s (Settle i) = None).
Proof.
  intros Hi Hplay Hr. pose proof (inv_reachable _ _ _ _ _ Hr) as I.
  split.
  - destruct (phase_of s) as [| |stats] eqn:Hp; try done.
    destruct (reachable_returned _ _ _ _ _ _ Hr Hp)
      as (_ & _ & _ & _ & _ & rs & Hrs & _).
    assert (i ∈ seq 1 (numIterations opts)) as Hin
      by (apply elem_of_seq; lia).
    apply list_elem_of_lookup in Hin as [j Hj].
    destruct (Forall2_lookup_l _ _ _ _ _ Hrs Hj) as (r & _ & Hpr).
    congruence.
  - intros Hst.
    assert (i ∈ inflight s) as Hin.
    { rewrite <- (inv_settled _ _ _ _ _ I) in Hst.
      apply elem_of_app in Hst as [Hs|Hs]; [|by apply elem_of_elements].
      destruct Hr as [acts Hex].
      assert (is_Some (play i)) as [x Hx]; [|congruence].
      eapply (settles_settled play opts acts); [|exact Hex|exact Hs].
      intros j Hj. unfold run_init in Hj. simpl in Hj.
      destruct (falsy serverAddress0); by apply elem_of_nil in Hj. }
    split; [done|]. split.
    + simpl. destruct (phase_of s) eqn:Hp; try done.
      destruct (inv_running _ _ _ _ _ I Hp) as [Heq _].
      rewrite decide_False; [done|]. rewrite <- Heq. set_solver.
    + simpl. rewrite decide_True by done. by rewrite Hplay.
Qed.

Lemma hanging_session_blocks_run_witness :
  is_returned
    (phase_of (state_after second_hangs_play opts_3_2
                 [Resume; Settle 1%nat])) = false.
Proof.
  apply (hanging_session_blocks_run second_hangs_play None opts_3_2 4242
           2%nat (state_after second_hangs_play opts_3_2
                    [Resume; Settle 1%nat])).
  - simpl. lia.
  - by vm_compute.
  - exists [Resume; Settle 1%nat]. by vm_compute.
Defined.

(** ** A run whose file is missing *)

Lemma first_batch_step play serverAddress0 opts port err0 s a s1 :
  (∀ i, play i = Some (Rejected err0)) →
  (1 ≤ numConcurrent opts)%nat → (1 ≤ numIterations opts)%nat →
  sched_inv play serverAddress0 opts port s →
  (phase_of s = Running → batches_of (trace s) = [] ∨ inflight s ≠ ∅) →
  (length (batches_of (trace s)) ≤ 1)%nat →
  is_returned (phase_of s) = false →
  step play opts s a = Some s1 →
  (phase_of s1 = Running → batches_of (trace s1) = [] ∨ inflight s1 ≠ ∅) ∧
  (length (batches_of (trace s1)) ≤ 1)%nat ∧
  is_returned (phase_of s1) = false.
Proof.
  intros Hall Hk Hn I Hrun Hlen Hnr. destruct a as [|i]; simpl.
  - destruct (phase_of s) eqn:Hp; try done.
    destruct (decide (awaiting s = ∅)) as [Ha|]; [|done].
    destruct (inv_running _ _ _ _ _ I Hp) as [Hin _]. rewrite Ha in Hin.
    destruct (Hrun eq_refl) as [Hb|]; [|done].
    destruct (jobs s) as [|x l] eqn:Hj; intros [= <-].
    + exfalso. pose proof (inv_started _ _ _ _ _ I) as Hst.
      unfold started in Hst. rewrite Hb, Hj in Hst. simpl in Hst.
      destruct (numIterations opts); [lia|done].
    + cbn [start_batch phase_of trace inflight].
      rewrite batches_of_snoc, Hb, Hp, Hin, Hj.
      split; [|split; [simpl; lia|done]].
      intros _. right.
      destruct (numConcurrent opts) as [|k]; [lia|]. simpl. set_solver.
  - destruct (decide (i ∈ inflight s)); [|done]. rewrite Hall.
    intros [= <-]. cbn [reject phase_of trace inflight].
    rewrite batches_of_snoc, app_nil_r.
    split; [by destruct (phase_of s)|]. split; [done|].
    by destruct (phase_of s).
Qed.

Lemma first_batch_only play serverAddress0 opts port err0 acts : ∀ s s',
  (∀ i, play i = Some (Rejected err0)) →
  (1 ≤ numConcurrent opts)%nat → (1 ≤ numIterations opts)%nat →
  sched_inv play serverAddress0 opts port s →
  (phase_of s = Running → batches_of (trace s) = [] ∨ inflight s ≠ ∅) →
  (length (batches_of (trace s)) ≤ 1)%nat →
  is_returned (phase_of s) = false →
  exec play opts s acts = Some s' →
  (length (batches_of (trace s')) ≤ 1)%nat ∧
  is_returned (phase_of s') = false.
Proof.
  induction acts as [|a acts IH]; intros s s' Hall Hk Hn I Hrun Hlen Hnr.
  - by intros [= <-].
  - cbn [exec]. destruct (step play opts s a) as [s1|] eqn:Hs; [|done].
    pose proof (inv_step _ _ _ _ _ _ _ I Hs) as I1.
    destruct (first_batch_step _ _ _ _ _ _ _ _ Hall Hk Hn I Hrun Hlen Hnr Hs)
      as (Hrun1 & Hlen1 & Hnr1).
    by apply IH.
Qed.

(** X8.  When the file does not exist every session rejects with
    [Cannot find <filePath>] before it connects.  Then, for at least one
    iteration and a limit of at least 1, [run] never returns, never
    starts a second batch (so at most [numConcurrent] sessions are ever
    started), and the error it fails with is that one; it fails as soon
    as any session in flight settles. *)
Theorem missing_file_run H filePath serverAddress0 opts port worlds s :
  (∀ i, pathExists (worlds i) = false) →
  (1 ≤ numConcurrent opts)%nat → (1 ≤ numIterations opts)%nat →
  reachable (play_in H filePath serverAddress0 opts port worlds)
    serverAddress0 opts port s →
  (∀ i, play_in H filePath serverAddress0 opts port worlds i =
        Some (Rejected (Error ("Cannot find " +:+ filePath)%string))) ∧
  is_returned (phase_of s) = false ∧
  (length (batches_of (trace s)) ≤ 1)%nat ∧
  (length (started s) ≤ numConcurrent opts)%nat ∧
  (∀ err, phase_of s = Failed err →
          err = Error ("Cannot find " +:+ filePath)%string) ∧
  (∀ i, i ∈ inflight s →
     ∃ s', step (play_in H filePath serverAddress0 opts port worlds)
             opts s (Settle i) = Some s' ∧
           phase_of s' = Failed (Error ("Cannot find " +:+ filePath)%string)).
Proof.
  intros Hmiss Hk Hn Hr.
  set (play := play_in H filePath serverAddress0 opts port worlds) in *.
  assert (∀ i, play i =
               Some (Rejected (Error ("Cannot find " +:+ filePath)%string)))
    as Hall.
  { intros i. unfold play, play_in, playStream. by rewrite Hmiss. }
  pose proof (inv_reachable _ _ _ _ _ Hr) as I.
  assert (∀ err, phase_of s = Failed err →
                 err = Error ("Cannot find " +:+ filePath)%string) as Herr.
  { intros err Hp. pose proof (inv_first _ _ _ _ _ I) as Hfirst.
    rewrite Hp in Hfirst. unfold first_rejection in Hfirst.
    apply head_Some_elem_of in Hfirst.
    apply list_elem_of_omap in Hfirst as (i & _ & Hrej).
    unfold rejected_of in Hrej. rewrite Hall in Hrej. congruence. }
  destruct Hr as [acts Hex].
  assert ((length (batches_of (trace s)) ≤ 1)%nat ∧
          is_returned (phase_of s) = false) as [Hlen Hnr].
  { eapply (first_batch_only play serverAddress0 opts port _ acts
              (run_init serverAddress0 opts port) s Hall Hk Hn
              (inv_init play serverAddress0 opts port)); [| |done|exact Hex].
    - intros _. left. unfold run_init. simpl.
      by destruct (falsy serverAddress0).
    - unfold run_init. simpl. destruct (falsy serverAddress0); simpl; lia. }
  split; [done|]. split; [done|]. split; [done|]. split; [|split; [done|]].
  - pose proof (inv_partition _ _ _ _ _ I Hk) as Hpart.
    pose proof (chunks_length_le (numConcurrent opts) (numIterations opts)
                  (seq 1 (numIterations opts))) as Hle.
    rewrite <- Hpart in Hle. apply Forall_app in Hle as [Hle _].
    unfold started.
    destruct (batches_of (trace s)) as [|b [|b' bs]]; simpl in *.
    + lia.
    + apply Forall_cons in Hle as [Hb _]. rewrite app_nil_r. exact Hb.
    + lia.
  - intros i Hi. exists (reject i (Error ("Cannot find " +:+ filePath)%string) s).
    simpl. rewrite decide_True by done. rewrite Hall. split; [done|].
    destruct (phase_of s) as [|err|] eqn:Hp; try done.
    by rewrite (Herr err eq_refl).
Qed.

Lemma missing_file_run_witness :
  is_returned
    (phase_of (state_after (missing_play opts_3_2) opts_3_2
                 [Resume; Settle 2%nat; Settle 1%nat])) = false.
Proof.
  apply (missing_file_run sample_helpers "missing.bin" None opts_3_2 4242
           (λ _, missing_world)
           (state_after (missing_play opts_3_2) opts_3_2
              [Resume; Settle 2%nat; Settle 1%nat])).
  - done.
  - simpl. lia.
  - simpl. lia.
  - exists [Resume; Settle 2%nat; Settle 1%nat]. by vm_compute.
Defined.

(** * Further properties of [playStream] *)

(** ** When a listener throws *)

Lemma accepts_step H debug fileSize d s e d' :
  session_inv debug d s →
  dec_step d e = Some d' →
  is_decoder_event e = true ∨ is_local_event e = true →
  is_Some (on_event H debug fileSize s e).
Proof.
  intros [_ _ Hhash] Hd Hkind.
  destruct e as [now|now|now h|chunk|now|data|handle now|remote];
    simpl in *; try by eexists.
  - destruct d; [done|]. unfold on_data. destruct debug; [|by eexists].
    destruct (Hhash eq_refl eq_refl) as [msg ->]. by eexists.
  - destruct d; [done|]. unfold on_dataEnd. destruct debug; [|by eexists].
    destruct (Hhash eq_refl eq_refl) as [msg ->]. by eexists.
  - by destruct Hkind.
  - by destruct Hkind.
Qed.

(** X9.  The ['data'] and ['dataEnd'] listeners use [dataHash] only in
    debug mode.  Without debug mode no listener of the file, the debugger
    or the decoder ever throws, in any state.  In debug mode none throws
    as long as the decoder keeps to its event order; but a chunk or an end
    of blob before the first header throws ([dataHash] is undefined), and
    after an end of blob both throw until the next header (the digest has
    been taken). *)
Theorem listeners_throw_only_out_of_order H debug fileSize start es d s :
  reached H debug fileSize start es d s →
  (∀ e d', dec_step d e = Some d' →
     is_decoder_event e = true ∨ is_local_event e = true →
     is_Some (on_event H debug fileSize s e)) ∧
  (∀ s0 e, is_decoder_event e = true ∨ is_local_event e = true →
     is_Some (on_event H false fileSize s0 e)) ∧
  (∀ chunk now,
     on_event H true fileSize (session_init start) (OnData chunk) = None ∧
     on_event H true fileSize (session_init start) (OnDataEnd now) = None) ∧
  (∀ s0 now s1 chunk now',
     on_event H true fileSize s0 (OnDataEnd now) = Some s1 →
     on_event H true fileSize s1 (OnData chunk) = None ∧
     on_event H true fileSize s1 (OnDataEnd now') = None).
Proof.
  intros Hr. pose proof (session_inv_reached _ _ _ _ _ _ _ Hr) as I.
  split; [|split; [|split]].
  - intros e d' Hd Hkind. by eapply accepts_step.
  - intros s0 e Hkind.
    destruct e as [now|now|now h|chunk|now|data|handle now|remote];
      simpl in *; try by eexists.
    + by destruct Hkind.
    + by destruct Hkind.
  - done.
  - intros s0 now s1 chunk now' Hs1. simpl in Hs1. unfold on_dataEnd in Hs1.
    destruct (dataHash s0) as [[msg|]|]; [|done..]. by injection Hs1 as <-.
Qed.

Lemma listeners_throw_only_out_of_order_witness :
  is_Some (on_event sample_helpers true 100
             (session_after true [OnHeader 10 hello_header])
             (OnData (list_byte_of_string "hello"))).
Proof.
  apply (listeners_throw_only_out_of_order sample_helpers true 100 0
           [OnHeader 10 hello_header] AwaitData
           (session_after true [OnHeader 10 hello_header]))
    with (d' := AwaitData).
  - split; by vm_compute.
  - reflexivity.
  - by left.
Defined.

(** ** What debug mode changes *)

Lemma quiet_step H fileSize s e s' :
  on_event H false fileSize s e = Some s' →
  stdout s' = stdout s ∧ dataHash s' = dataHash s.
Proof.
  intros He.
  destruct e as [now|now|now h|chunk|now|data|handle now|remote];
    session_event He; done.
Qed.

Lemma quiet_run H fileSize es : ∀ s s',
  on_events H false fileSize s es = Some s' →
  stdout s' = stdout s ∧ dataHash s' = dataHash s.
Proof.
  induction es as [|e es IH]; intros s s'; simpl.
  - by intros [= <-].
  - destruct (on_event H false fileSize s e) as [s1|] eqn:He; [|done].
    intros Hs. destruct (quiet_step _ _ _ _ _ He) as [<- <-]. by apply IH.
Qed.

Lemma without_debug_step H fileSize s e s' :
  on_event H true fileSize s e = Some s' →
  on_event H false fileSize (without_debug s) e = Some (without_debug s').
Proof.
  intros He.
  destruct e as [now|now|now h|chunk|now|data|handle now|remote];
    simpl in He |- *.
  - by injection He as <-.
  - by injection He as <-.
  - by injection He as <-.
  - unfold on_data in He. destruct (dataHash s) as [[msg|]|]; [|done..].
    by injection He as <-.
  - unfold on_dataEnd in He. destruct (dataHash s) as [[msg|]|]; [|done..].
    by injection He as <-.
  - by injection He as <-.
  - destruct (timers s !! handle) as [due|]; [|done].
    destruct (decide (due ≤ now)); [|done]. by injection He as <-.
  - destruct (resolved s); [done|].
    destruct (remote || bool_decide (end_calls s ≠ [])); [|done].
    by injection He as <-.
Qed.

Lemma without_debug_run H fileSize es : ∀ s s',
  on_events H true fileSize s es = Some s' →
  on_events H false fileSize (without_debug s) es = Some (without_debug s').
Proof.
  induction es as [|e es IH]; intros s s'; simpl.
  - by intros [= <-].
  - destruct (on_event H true fileSize s e) as [s1|] eqn:He; [|done].
    rewrite (without_debug_step _ _ _ _ _ He). apply IH.
Qed.

Lemma with_debug_step H fileSize d s e d' s1 :
  session_inv true d s →
  dec_step d e = Some d' →
  on_event H false fileSize (without_debug s) e = Some s1 →
  ∃ s', on_event H true fileSize s e = Some s' ∧ without_debug s' = s1.
Proof.
  intros I Hd He.
  assert (is_Some (on_event H true fileSize s e)) as [s' Hs'].
  { destruct (is_decoder_event e || is_local_event e) eqn:Hkind.
    - eapply accepts_step; [exact I|exact Hd|].
      by apply orb_true_iff in Hkind.
    - destruct e as [now|now|now h|chunk|now|data|handle now|remote];
        try done; simpl in He |- *.
      + destruct (timers s !! handle) as [due|]; [|done].
        destruct (decide (due ≤ now)); [by eexists|done].
      + destruct (resolved s); [done|].
        destruct (remote || bool_decide (end_calls s ≠ [])); [by eexists|done]. }
  exists s'. split; [done|].
  apply without_debug_step in Hs'. congruence.
Qed.

Lemma with_debug_run H fileSize es : ∀ d s d' s2,
  session_inv true d s →
  dec_run d es = Some d' →
  on_events H false fileSize (without_debug s) es = Some s2 →
  ∃ s', on_events H true fileSize s es = Some s' ∧ without_debug s' = s2.
Proof.
  induction es as [|e es IH]; intros d s d' s2 I; simpl.
  - intros _ [= <-]. by eexists.
  - destruct (dec_step d e) as [d1|] eqn:Hd; [|done].
    destruct (on_event H false fileSize (without_debug s) e) as [s1|] eqn:He;
      [|done].
    destruct (with_debug_step _ _ _ _ _ _ _ I Hd He) as (s1' & Hs1' & <-).
    rewrite Hs1'. intros Hrun Hs2.
    eapply IH; [|exact Hrun|exact Hs2]. by eapply session_inv_step.
Qed.

(** X10.  Without debug mode a session writes nothing to standard output
    and creates no [Hash] object.  Debug mode changes nothing else: a
    session that gets through its events in debug mode gets through them
    without it, ending in the same state but for the output and the hash,
    so that it resolves the same result, makes the same [end] calls and
    has the same timeouts pending; and when the decoder keeps to its event
    order the converse holds too.  In particular [playStream] settles the
    same way with [debugProtocol] off as it does with it on. *)
Theorem debug_only_prints H fileSize start es s :
  on_events H true fileSize (session_init start) es = Some s →
  on_events H false fileSize (session_init start) es
    = Some (without_debug s) ∧
  (∀ es' s', on_events H false fileSize (session_init start) es' = Some s' →
     stdout s' = EmptyString ∧ dataHash s' = None) ∧
  (∀ es' d s', dec_run AwaitHeader es' = Some d →
     on_events H false fileSize (session_init start) es' = Some s' →
     ∃ s'', on_events H true fileSize (session_init start) es' = Some s'' ∧
            without_debug s'' = s') ∧
  (∀ filePath address opts opts' w r,
     debugProtocol opts = true → debugProtocol opts' = false →
     playStream H filePath address opts w = Some r →
     playStream H filePath address opts' w = Some r).
Proof.
  intros Hs. split; [|split; [|split]].
  - by apply without_debug_run in Hs.
  - intros es' s' Hs'. by apply quiet_run in Hs'.
  - intros es' d s' Hd Hs'.
    eapply with_debug_run; [apply session_inv_init|exact Hd|exact Hs'].
  - intros filePath address opts opts' w r Hon Hoff.
    unfold playStream. rewrite Hon, Hoff.
    destruct (pathExists w); [|done].
    destruct (parseAndValidateAddressString H address (DEFAULT_PORT H));
      [|done].
    destruct (on_events H true _ (session_init (startTime w))
                (events w)) as [s1|] eqn:Hs1; [|done].
    apply without_debug_run in Hs1.
    change (without_debug (session_init (startTime w)))
      with (session_init (startTime w)) in Hs1.
    by rewrite Hs1.
Qed.

Lemma debug_only_prints_witness :
  on_events sample_helpers false 100 (session_init 0) hello_session
  = Some (without_debug (session_after true hello_session)).
Proof.
  apply (debug_only_prints sample_helpers 100 0 hello_session
           (session_after true hello_session)).
  by vm_compute.
Defined.

(** ** How long the client waits before it ends the connection *)






(** ** How [playStream] settles *)

Lemma data_bytes_nonneg es : 0 ≤ data_bytes es.
Proof.
  induction es as [|e es IH]; simpl; [done|].
  unfold data_bytes in *. simpl. destruct e; lia.
Qed.

Lemma on_close_result H debug fileSize start es s :
  on_events H debug fileSize (session_init start) es = Some s →
  resolved (on_close fileSize s) = Some (result_of fileSize es).
Proof.
  intros Hs.
  destruct (fields_run _ _ _ _ _ _ Hs) as (H1 & H2 & H3 & H4 & H5 & _).
  simpl in H1, H2, H3, H4, H5. simpl. unfold result_of.
  rewrite H1, H2, H3, H4, H5. repeat f_equal; try lia;
    by repeat match goal with
              | |- context [last ?l] => destruct (last l)
              | |- context [head ?l] => destruct (head l)
              end.
Qed.

Lemma first_close H debug fileSize es : ∀ s0 s r,
  resolved s0 = None →
  on_events H debug fileSize s0 es = Some s →
  resolved s = Some r →
  ∃ es1 remote es2 s1,
    es = es1 ++ OnClose remote :: es2 ∧
    (∀ remote', OnClose remote' ∉ es1) ∧
    on_events H debug fileSize s0 es1 = Some s1 ∧
    resolved (on_close fileSize s1) = Some r ∧
    (remote = true ∨ end_calls s1 ≠ []).
Proof.
  induction es as [|e es IH]; intros s0 s r Hn; simpl.
  - intros [= <-]. congruence.
  - destruct (on_event H debug fileSize s0 e) as [s1|] eqn:He; [|done].
    intros Hs Hr.
    assert ((∃ remote, e = OnClose remote) ∨ ¬ ∃ remote, e = OnClose remote)
      as [[remote ->]|Hne].
    { destruct e; try (by right; intros [? ?]). left. by eexists. }
    + simpl in He. rewrite Hn in He.
      destruct (remote || bool_decide (end_calls s0 ≠ [])) eqn:Hen; [|done].
      injection He as <-.
      exists [], remote, es, s0. split; [done|]. split.
      { intros remote' Hin. by apply elem_of_nil in Hin. }
      split; [done|]. split.
      * assert (resolved (on_close fileSize s0) =
                Some {| bytesSent := Num fileSize;
                        bytesReceived := Num (received s0);
                        sendTime := tsub (sendEndTime s0) (sendStartTime s0);
                        receiveTime :=
                          tsub (receiveEndTime s0) (receiveStartTime s0) |})
          as Hres by done.
        destruct (resolved_run _ _ _ _ _ _ _ Hres Hs) as [Hr' _].
        simpl. congruence.
      * destruct remote; [by left|right]. simpl in Hen.
        by apply bool_decide_eq_true in Hen.
    + assert (resolved s1 = None) as Hn1.
      { eapply (unresolved_run H debug fileSize [e] s0 s1 Hn).
        - intros remote [Heq|Hin]%elem_of_cons;
            [apply Hne; by eexists|by apply elem_of_nil in Hin].
        - simpl. by rewrite He. }
      destruct (IH _ _ _ Hn1 Hs Hr)
        as (es1 & remote & es2 & s1' & -> & Hno & Hs1 & Hres & Hwho).
      exists (e :: es1), remote, es2, s1'. split; [done|]. split.
      { intros remote' [Heq|Hin]%elem_of_cons;
          [apply Hne; by eexists|by eapply Hno]. }
      split; [|done]. simpl. by rewrite He.
Qed.

Lemma playStream_fulfilled H filePath address opts w r :
  playStream H filePath address opts w = Some (Fulfilled r) →
  pathExists w = true ∧
  (∃ a, parseAndValidateAddressString H address (DEFAULT_PORT H) = inl a) ∧
  ∃ es1 remote es2 s1,
    events w = es1 ++ OnClose remote :: es2 ∧
    (∀ remote', OnClose remote' ∉ es1) ∧
    on_events H (debugProtocol opts) (fileSize w)
      (session_init (startTime w)) es1 = Some s1 ∧
    (remote = true ∨ end_calls s1 ≠ []) ∧
    r = result_of (fileSize w) es1 ∧
    bytesSent r = Num (fileSize w) ∧
    bytesReceived r = Num (data_bytes es1) ∧
    0 ≤ data_bytes es1.
Proof.
  unfold playStream. destruct (pathExists w); [|done].
  destruct (parseAndValidateAddressString H address (DEFAULT_PORT H))
    as [a|err'] eqn:Hp; [|done].
  destruct (on_events _ _ _ _ _) as [s|] eqn:Hs; [|done].
  destruct (resolved s) as [r'|] eqn:Hr; [|done]. intros [= ->].
  split; [done|]. split; [by eexists|].
  destruct (first_close _ _ _ _ _ _ _
              (eq_refl : resolved (session_init (startTime w)) = None)
              Hs Hr)
    as (es1 & remote & es2 & s1 & Hes & Hno & Hs1 & Hres & Hwho).
  exists es1, remote, es2, s1.
  rewrite (on_close_result _ _ _ _ _ _ Hs1) in Hres. injection Hres as <-.
  repeat split; try done. apply data_bytes_nonneg.
Qed.



(** * Further properties of the program *)

(** ** The bytes a run reports *)

Lemma data_bytes_app es1 es2 :
  data_bytes (es1 ++ es2) = data_bytes es1 + data_bytes es2.
Proof.
  unfold data_bytes. induction es1 as [|e es1 IH]; simpl; [done|].
  rewrite IH. destruct e; lia.
Qed.

Lemma sum_bytesSent (worlds : nat → world) l rs :
  Forall2 (λ i r, bytesSent r = Num (fileSize (worlds i))) l rs →
  sum_field bytesSent rs =
  Num (foldr (λ i acc, fileSize (worlds i) + acc) 0 l).
Proof.
  unfold sum_field.
  induction 1 as [|i r l rs Hr _ IH]; simpl; [done|]. by rewrite Hr, IH.
Qed.

(** X13.  When [run] returns, the [bytesSent] it reports is the sum of
    the sizes of the files of all its sessions, and [bytesReceived] is a
    number, never negative: only the two times can be [NaN].  So the
    caller, when verbose, prints the [Sent] line exactly when that total
    size is positive and the [Received] line exactly when something was
    received, and exits with no error code; and when no session is sent
    any data (as by the local server, which never writes) it reports 0
    bytes received and prints no [Received] line. *)
Theorem run_reports_bytes H filePath serverAddress0 opts port worlds s stats :
  reachable (play_in H filePath serverAddress0 opts port worlds)
    serverAddress0 opts port s →
  phase_of s = Returned stats →
  bytesSent stats = Num (total_size worlds (numIterations opts)) ∧
  (∃ z, 0 ≤ z ∧ bytesReceived stats = Num z) ∧
  program_action opts (phase_of s) =
    (if verbose opts then
       (if bool_decide (0 < total_size worlds (numIterations opts))
        then [SentLine stats] else []) ++
       (if gt0 (bytesReceived stats) then [ReceivedLine stats] else [])
     else [],
     None) ∧
  ((∀ i, data_bytes (events (worlds i)) = 0) →
   bytesReceived stats = Num 0 ∧
   ∀ r, ReceivedLine r ∉ (program_action opts (phase_of s)).1).
Proof.
  intros Hreach Hp.
  destruct (reachable_returned _ _ _ _ _ _ Hreach Hp)
    as (_ & _ & _ & _ & _ & rs & Hrs & _ & ->).
  assert (Forall2 (λ i r, bytesSent r = Num (fileSize (worlds i)) ∧
                          ∃ z, 0 ≤ z ≤ data_bytes (events (worlds i)) ∧
                               bytesReceived r = Num z)
            (seq 1 (numIterations opts)) rs) as Hall.
  { eapply Forall2_impl; [exact Hrs|]. intros i r Hplay. simpl in Hplay.
    destruct (playStream_fulfilled _ _ _ _ _ _ Hplay)
      as (_ & _ & es1 & remote & es2 & s1 & Hes & _ & _ & _ & _ &
          Hsent & Hrecv & Hpos).
    split; [done|]. exists (data_bytes es1). split; [|done].
    rewrite Hes, data_bytes_app.
    pose proof (data_bytes_nonneg (OnClose remote :: es2)). lia. }
  assert (bytesSent (stats_sum rs) =
          Num (total_size worlds (numIterations opts))) as Hsent.
  { simpl. apply sum_bytesSent.
    eapply Forall2_impl; [exact Hall|]. by intros i r [? _]. }
  split; [done|]. split; [|split].
  - simpl. unfold sum_field. clear Hsent Hrs Hp.
    induction Hall as [|i r l rs' [_ (z & Hz & Hr)] _ (z' & Hz' & IH)];
      simpl.
    + by exists 0.
    + exists (z + z'). split; [lia|]. by rewrite Hr, IH.
  - rewrite Hp. simpl in Hsent |- *. rewrite Hsent. simpl. done.
  - intros Hquiet.
    assert (sum_field bytesReceived rs = Num 0) as Hzero.
    { unfold sum_field. clear Hsent Hrs Hp.
      induction Hall as [|i r l rs' [_ (z & Hz & Hr)] _ IH]; simpl; [done|].
      rewrite Hr, IH. rewrite Hquiet in Hz. simpl. f_equal. lia. }
    split; [done|]. intros r. rewrite Hp. simpl. rewrite Hzero. simpl.
    destruct (verbose opts); simpl; [|by intros ?%elem_of_nil].
    rewrite app_nil_r.
    destruct (gt0 (sum_field bytesSent rs)).
    + intros [?|?%elem_of_nil]%elem_of_cons; done.
    + by intros ?%elem_of_nil.
Qed.

Lemma run_reports_bytes_witness :
  bytesSent quiet_result = Num (total_size (λ _, quiet_world) 1) ∧
  (∃ z, 0 ≤ z ∧ bytesReceived quiet_result = Num z) ∧
  program_action opts_1_1 (Returned quiet_result) =
    ([SentLine quiet_result], None) ∧
  ((∀ i : nat, data_bytes (events quiet_world) = 0) →
   bytesReceived quiet_result = Num 0 ∧
   ∀ r, ReceivedLine r ∉ (program_action opts_1_1 (Returned quiet_result)).1).
Proof.
  apply (run_reports_bytes sample_helpers "session.bin" None opts_1_1 4242
           (λ _, quiet_world)
           (state_after (quiet_play opts_1_1) opts_1_1
              [Resume; Settle 1%nat; Resume]) quiet_result).
  - exists [Resume; Settle 1%nat; Resume]. by vm_compute.
  - by vm_compute.
Defined.
